(** * Radio control container: adapter, registry and orchestrator

    A shallow embedding of the command path of the radio control container
    (rcc): the common result and state types, the Silvus adapter, the
    [RadioManager] registry that owns the adapters, the audit record and
    the command orchestrator, followed by the properties of the
    specification that concern them.

    The repository carries two generations of these classes.  The adapter,
    the registry and the audit record are taken from the one built on
    [rcc/common/types.hpp] ([IRadioAdapter], a map of [RadioDescriptor]s);
    the orchestrator exists only in the earlier skeleton, whose member
    functions print and return a fixed result.  The skeleton's registry,
    the authenticators, the telemetry hub's publishers and the text
    functions of the result codes follow.

    Every member function below runs under the mutex of its object, so it
    is modelled as one atomic step; doubles are binary64 floats and are only
    stored, printed and compared. *)

From Stdlib Require Import ZArith PrimFloat.
From stdpp Require Import gmap strings list fin_maps.

Set Warnings "-inexact-float,-register-all".
Local Open Scope string_scope.
Local Open Scope list_scope.

(** ** rcc/common/types.hpp *)

Module Common.

Inductive CommandResultCode :=
| Ok
| InvalidRange
| Busy
| Unavailable
| InternalError.

Definition to_string (code : CommandResultCode) : string :=
  match code with
  | Ok => "ok"
  | InvalidRange => "invalid_range"
  | Busy => "busy"
  | Unavailable => "unavailable"
  | InternalError => "internal"
  end.

Record CommandResult := {
  code : CommandResultCode;
  message : string;
  vendor_payload : option string
}.

(** The aggregate [{.code = c}]: the other members are value-initialised. *)
Definition result_with (c : CommandResultCode) : CommandResult :=
  {| code := c; message := ""; vendor_payload := None |}.

(** [StatusBusy] is [RadioStatus::Busy]; the two scoped enumerations share
    that enumerator's name. *)
Inductive RadioStatus :=
| Offline
| Discovering
| Ready
| StatusBusy
| Recovering.

Definition status_to_string (status : RadioStatus) : string :=
  match status with
  | Offline => "offline"
  | Discovering => "discovering"
  | Ready => "ready"
  | StatusBusy => "busy"
  | Recovering => "recovering"
  end.

#[global] Instance RadioStatus_eq_dec : EqDecision RadioStatus.
Proof. solve_decision. Defined.

#[global] Instance CommandResultCode_eq_dec : EqDecision CommandResultCode.
Proof. solve_decision. Defined.

(** [channel_index] is a C++ [int], [power_watts] a [double]; both are
    only ever stored and read back, so no arithmetic on them occurs. *)
Record RadioState := {
  status : RadioStatus;
  channel_index : option Z;
  power_watts : option float
}.

(** The value-initialised [RadioState{}]. *)
Definition default_state : RadioState :=
  {| status := Offline; channel_index := None; power_watts := None |}.

Definition with_status (s : RadioStatus) (st : RadioState) : RadioState :=
  {| status := s; channel_index := channel_index st; power_watts := power_watts st |}.

Definition with_channel (c : Z) (st : RadioState) : RadioState :=
  {| status := status st; channel_index := Some c; power_watts := power_watts st |}.

Definition with_power (w : float) (st : RadioState) : RadioState :=
  {| status := status st; channel_index := channel_index st; power_watts := Some w |}.

End Common.

Import Common.

(** ** rcc/adapter/radio_adapter.hpp and silvus_adapter.cpp *)

Module Adapter.

Record CapabilityInfo := {
  supported_frequencies_mhz : list float;
  power_range_watts : float * float
}.

Record SilvusAdapter := {
  id_ : string;
  endpoint_ : string;
  capabilities_ : CapabilityInfo;
  state_ : RadioState
}.

Definition set_state_ (st : RadioState) (a : SilvusAdapter) : SilvusAdapter :=
  {| id_ := id_ a; endpoint_ := endpoint_ a;
     capabilities_ := capabilities_ a; state_ := st |}.

(** [SilvusAdapter::SilvusAdapter(id, endpoint)]. *)
Definition make (id endpoint : string) : SilvusAdapter :=
  {| id_ := id;
     endpoint_ := endpoint;
     capabilities_ :=
       {| supported_frequencies_mhz := [2412.0; 2437.0; 2462.0]%float;
          power_range_watts := (0.1, 5.0)%float |};
     state_ := with_status Offline default_state |}.

Definition id (a : SilvusAdapter) : string := id_ a.
Definition capabilities (a : SilvusAdapter) : CapabilityInfo := capabilities_ a.
Definition state (a : SilvusAdapter) : RadioState := state_ a.

(** A method body runs on the adapter object under its mutex.  Besides the
    returned value and the updated object it yields the list of values
    assigned to [state_.status], in program order, so that the transient
    writes of a body stay visible. *)
Definition Method (A : Type) : Type :=
  SilvusAdapter -> A * SilvusAdapter * list RadioStatus.

Definition ret {A} (x : A) : Method A := fun a => (x, a, []).

Definition bind {A B} (m : Method A) (k : A -> Method B) : Method B :=
  fun a =>
    let '(x, a1, t1) := m a in
    let '(y, a2, t2) := k x a1 in
    (y, a2, t1 ++ t2).

Notation "'do' x <- m ; k" := (bind m (fun x => k))
  (at level 10, x name, m at level 100, k at level 200).
Notation "'exec_' m ; k" := (bind m (fun _ => k))
  (at level 10, m at level 100, k at level 200).

Definition assign_status (s : RadioStatus) : Method unit :=
  fun a => (tt, set_state_ (with_status s (state_ a)) a, [s]).

Definition assign_power_watts (w : float) : Method unit :=
  fun a => (tt, set_state_ (with_power w (state_ a)) a, []).

Definition assign_channel_index (c : Z) : Method unit :=
  fun a => (tt, set_state_ (with_channel c (state_ a)) a, []).

Definition read_status : Method RadioStatus :=
  fun a => (status (state_ a), a, []).

Definition connect : Method CommandResult :=
  exec_ assign_status Ready;
  ret (result_with Ok).

Definition set_power (watts : float) : Method CommandResult :=
  exec_ assign_power_watts watts;
  exec_ assign_status StatusBusy;
  exec_ assign_status Ready;
  ret (result_with Ok).

(** [frequency_mhz] is discarded by the body ([(void)frequency_mhz]). *)
Definition set_channel (channel_index : Z) (frequency_mhz : float)
  : Method CommandResult :=
  exec_ assign_channel_index channel_index;
  exec_ assign_status StatusBusy;
  exec_ assign_status Ready;
  ret (result_with Ok).

Definition refresh_state : Method CommandResult :=
  do s <- read_status;
  exec_ (if decide (s = Offline) then assign_status Ready else ret tt);
  ret (result_with Ok).

(** Projections of one call. *)
Definition result_of {A} (r : A * SilvusAdapter * list RadioStatus) : A :=
  fst (fst r).
Definition after {A} (r : A * SilvusAdapter * list RadioStatus) : SilvusAdapter :=
  snd (fst r).
Definition writes {A} (r : A * SilvusAdapter * list RadioStatus) : list RadioStatus :=
  snd r.

(** Range predicates over [capabilities()], as a caller would evaluate
    them; no method of the adapter does. *)
Definition in_power_range (c : CapabilityInfo) (w : float) : bool :=
  PrimFloat.leb (fst (power_range_watts c)) w
  && PrimFloat.leb w (snd (power_range_watts c)).

Definition frequency_supported (c : CapabilityInfo) (f : float) : bool :=
  existsb (PrimFloat.eqb f) (supported_frequencies_mhz c).

(** The operations of the capability contract that mutate the adapter. *)
Inductive Op :=
| OpConnect
| OpSetPower (watts : float)
| OpSetChannel (channel_index : Z) (frequency_mhz : float)
| OpRefreshState.

Definition exec (op : Op) : Method CommandResult :=
  match op with
  | OpConnect => connect
  | OpSetPower w => set_power w
  | OpSetChannel c f => set_channel c f
  | OpRefreshState => refresh_state
  end.

Definition is_command (op : Op) : bool :=
  match op with
  | OpSetPower _ | OpSetChannel _ _ => true
  | OpConnect | OpRefreshState => false
  end.

(** Running a sequence of operations, collecting for each the status it
    started from and the status writes it performed. *)
Fixpoint run (ops : list Op) (a : SilvusAdapter)
  : SilvusAdapter * list (Op * RadioStatus * list RadioStatus) :=
  match ops with
  | [] => (a, [])
  | op :: rest =>
      let r := exec op a in
      let '(a', log) := run rest (after r) in
      (a', (op, status (state_ a), writes r) :: log)
  end.

End Adapter.

(** ** The status state machine of the specification (section 4.3) *)

Module StateMachine.

Inductive Event :=
| ConnectSuccess
| RefreshSuccess
| ConnectFailure
| CommandInvoked
| CommandCompletes
| LinkLoss
| RefreshExhausted
| Teardown.

Definition all_events : list Event :=
  [ConnectSuccess; RefreshSuccess; ConnectFailure; CommandInvoked;
   CommandCompletes; LinkLoss; RefreshExhausted; Teardown].

(** The transition table as the specification words it, one branch per
    row: the status a row leads to, or [None] where the table has no row
    for that status and event. *)
Definition spec_table (from : RadioStatus) (e : Event) : option RadioStatus :=
  match e, from with
  | ConnectSuccess, Offline => Some Ready
  | RefreshSuccess, Offline => Some Ready
  | ConnectFailure, Offline => Some Offline
  | CommandInvoked, Ready => Some StatusBusy
  | CommandCompletes, StatusBusy => Some Ready
  | LinkLoss, Ready => Some Recovering
  | LinkLoss, StatusBusy => Some Recovering
  | RefreshSuccess, Recovering => Some Ready
  | RefreshExhausted, Recovering => Some Offline
  | Teardown, _ => Some Offline
  | _, _ => None
  end.

(** A change of status is permitted when some row of the table, for one of
    the events [evs], leads from the old status to the new one. *)
Definition permitted_by (evs : list Event) (from to : RadioStatus) : bool :=
  existsb (fun e => bool_decide (spec_table from e = Some to)) evs.

Definition permitted : RadioStatus -> RadioStatus -> bool :=
  permitted_by all_events.

(** The events an adapter operation can stand for. *)
Definition events_of (op : Adapter.Op) : list Event :=
  match op with
  | Adapter.OpConnect => [ConnectSuccess; ConnectFailure]
  | Adapter.OpSetPower _ | Adapter.OpSetChannel _ _ =>
      [CommandInvoked; CommandCompletes; LinkLoss]
  | Adapter.OpRefreshState => [RefreshSuccess; RefreshExhausted]
  end.

(** The status changes made by a list of status writes that starts from
    [from]: a write of the value already held changes nothing. *)
Fixpoint changes (from : RadioStatus) (ws : list RadioStatus)
  : list (RadioStatus * RadioStatus) :=
  match ws with
  | [] => []
  | s :: rest =>
      if decide (from = s) then changes s rest
      else (from, s) :: changes s rest
  end.

Definition changes_permitted (evs : list Event) (from : RadioStatus)
    (ws : list RadioStatus) : bool :=
  forallb (fun c => permitted_by evs (fst c) (snd c)) (changes from ws).

(** One adapter call, checked against the rows of its own events. *)
Definition call_follows_table (op : Adapter.Op) (a : Adapter.SilvusAdapter) : bool :=
  changes_permitted (events_of op) (status (Adapter.state a))
    (Adapter.writes (Adapter.exec op a)).

(** The same call checked against every row of the table, whatever its
    event. *)
Definition call_within_table (op : Adapter.Op) (a : Adapter.SilvusAdapter) : bool :=
  changes_permitted all_events (status (Adapter.state a))
    (Adapter.writes (Adapter.exec op a)).

Definition all_statuses : list RadioStatus :=
  [Offline; Discovering; Ready; StatusBusy; Recovering].

(** What holds of one entry of the log of [Adapter.run]: the operation
    [op], the status [from] it started in and its status writes [ws]. *)
Definition entry_follows_design (e : Adapter.Op * RadioStatus * list RadioStatus)
  : Prop :=
  let '(op, from, ws) := e in
  Forall (fun s => s ∈ all_statuses) (from :: ws)
  /\ (from = Offline \/ from = Ready)
  /\ (Adapter.is_command op = false \/ from = Ready ->
      changes_permitted (events_of op) from ws = true
      /\ changes_permitted all_events from ws = true)
  /\ (Adapter.is_command op = true -> ws = [StatusBusy; Ready]).

End StateMachine.

(** ** rcc/config/config_manager.hpp: the configuration read by the registry *)

Module Config.

Record RadioProfile := {
  id : string;
  adapter : string;
  endpoint : string
}.

(** Of [Configuration] the registry reads [radios] only; the network,
    telemetry and security members are left out. *)
Record Configuration := {
  container_id : string;
  deployment : string;
  radios : list RadioProfile
}.

End Config.

(** ** rcc/radio/radio_manager.hpp and radio_manager.cpp *)

Module Radio.

(** [AdapterPtr] is a [std::shared_ptr<IRadioAdapter>]: descriptors, the
    copies handed out by [list_radios] and the handles returned by
    [get_adapter] all alias one adapter object.  The objects live in a
    store indexed by address. *)
Definition AdapterPtr := positive.

Record RadioDescriptor := {
  id : string;
  adapter_type : string;
  adapter : AdapterPtr;
  state : RadioState
}.

Definition set_descriptor_state (st : RadioState) (d : RadioDescriptor)
  : RadioDescriptor :=
  {| id := id d; adapter_type := adapter_type d; adapter := adapter d; state := st |}.

Record RadioManager := {
  radios_ : gmap string RadioDescriptor;
  active_radio_ : option string
}.

Record World := {
  store : gmap AdapterPtr Adapter.SilvusAdapter;
  manager : RadioManager
}.

Definition set_radios_ (rs : gmap string RadioDescriptor) (w : World) : World :=
  {| store := store w;
     manager := {| radios_ := rs; active_radio_ := active_radio_ (manager w) |} |}.

Definition set_store (h : gmap AdapterPtr Adapter.SilvusAdapter) (w : World) : World :=
  {| store := h; manager := manager w |}.

Definition set_manager (m : RadioManager) (w : World) : World :=
  {| store := store w; manager := m |}.

(** A call through an adapter handle.  A [shared_ptr] never dangles, so
    [None] (no object at that address) does not arise in a world that is
    [registry_wf]. *)
Definition call {A} (l : AdapterPtr) (m : Adapter.Method A) (w : World)
  : option (A * World) :=
  a ← store w !! l;
  let r := m a in
  Some (Adapter.result_of r, set_store (<[l := Adapter.after r]> (store w)) w).

Definition adapter_state (l : AdapterPtr) (w : World) : option RadioState :=
  Adapter.state <$> store w !! l.

(** One iteration of the loop of [load_from_config].  [emplace] leaves the
    map alone when the key is already there; the adapter just made is then
    released with its last owner. *)
Definition load_one (w : World) (radio : Config.RadioProfile) : World :=
  if decide (Config.adapter radio = "silvus") then
    let l := fresh (dom (store w)) in
    let a := Adapter.make (Config.id radio) (Config.endpoint radio) in
    let descriptor :=
      {| id := Config.id radio;
         adapter_type := Config.adapter radio;
         adapter := l;
         state := Adapter.state a |} in
    match radios_ (manager w) !! Config.id radio with
    | Some _ => w
    | None =>
        set_radios_ (<[Config.id radio := descriptor]> (radios_ (manager w)))
          (set_store (<[l := a]> (store w)) w)
    end
  else w.

Definition load_from_config (config : Config.Configuration) (w : World) : World :=
  foldl load_one (set_radios_ ∅ w) (Config.radios config).

(** [RadioManager::RadioManager(io, config)]. *)
Definition construct (config : Config.Configuration) : World :=
  load_from_config config
    {| store := ∅; manager := {| radios_ := ∅; active_radio_ := None |} |}.

(** One iteration of the loop of [start], on the entry with key [key]. *)
Definition start_one (ow : option World) (entry : string * RadioDescriptor)
  : option World :=
  w ← ow;
  '(result, w1) ← call (adapter (snd entry)) Adapter.connect w;
  if decide (code result = Ok) then
    st ← adapter_state (adapter (snd entry)) w1;
    Some (set_radios_
            (alter (set_descriptor_state st) (fst entry) (radios_ (manager w1))) w1)
  else Some w1.

Definition start (w : World) : option World :=
  foldl start_one (Some w) (map_to_list (radios_ (manager w))).

Definition stop (w : World) : World :=
  set_manager {| radios_ := ∅; active_radio_ := None |} w.

Definition list_radios (m : RadioManager) : list RadioDescriptor :=
  snd <$> map_to_list (radios_ m).

Definition active_radio (m : RadioManager) : option string := active_radio_ m.

Definition set_active_radio (id : string) (m : RadioManager) : bool * RadioManager :=
  match radios_ m !! id with
  | None => (false, m)
  | Some _ => (true, {| radios_ := radios_ m; active_radio_ := Some id |})
  end.

(** [nullptr] is [None]. *)
Definition get_adapter (id : string) (m : RadioManager) : option AdapterPtr :=
  match radios_ m !! id with
  | None => None
  | Some d => Some (adapter d)
  end.

Definition get_state (id : string) (w : World) : option RadioState :=
  match radios_ (manager w) !! id with
  | None => Some default_state
  | Some d => adapter_state (adapter d) w
  end.

(** No descriptor holds an address without an object. *)
Definition registry_wf (w : World) : Prop :=
  forall id d, radios_ (manager w) !! id = Some d -> is_Some (store w !! adapter d).

(** The active-radio pointer, if set, names a key of the descriptor map. *)
Definition active_radio_known (m : RadioManager) : Prop :=
  forall id, active_radio_ m = Some id -> is_Some (radios_ m !! id).

(** [w'] has the objects and the keys of [w], the same active radio, and
    under each key a descriptor with the same adapter: what [start] and a
    call through a handle leave in place. *)
Definition same_shape (w w' : World) : Prop :=
  dom (store w') = dom (store w)
  /\ active_radio_ (manager w') = active_radio_ (manager w)
  /\ dom (radios_ (manager w')) = dom (radios_ (manager w))
  /\ forall id d', radios_ (manager w') !! id = Some d' ->
       exists d, radios_ (manager w) !! id = Some d /\ adapter d' = adapter d.

(** Operations on a registry: the four member functions that write it, the
    last of which is private and run by the constructor only, and a call
    made by a client through the handle [get_adapter] gave it. *)
Inductive Op :=
| OpSetActiveRadio (id : string)
| OpStop
| OpStart
| OpLoadFromConfig (config : Config.Configuration)
| OpAdapterCall (id : string) (op : Adapter.Op).

Definition is_public (op : Op) : bool :=
  match op with
  | OpLoadFromConfig _ => false
  | _ => true
  end.

Definition step (op : Op) (w : World) : option World :=
  match op with
  | OpSetActiveRadio id => Some (set_manager (snd (set_active_radio id (manager w))) w)
  | OpStop => Some (stop w)
  | OpStart => start w
  | OpLoadFromConfig config => Some (load_from_config config w)
  | OpAdapterCall id op =>
      match get_adapter id (manager w) with
      | None => Some w
      | Some l => snd <$> call l (Adapter.exec op) w
      end
  end.

Fixpoint run (ops : list Op) (w : World) : option World :=
  match ops with
  | [] => Some w
  | op :: rest => w' ← step op w; run rest w'
  end.

End Radio.

(** ** rcc/audit/audit_logger.hpp and audit_logger.cpp *)

Module Audit.

(** The shape of an [nlohmann::json] value. *)
Inductive Json :=
| JNull
| JBool (b : bool)
| JInt (z : Z)
| JFloat (f : float)
| JString (s : string)
| JArray (items : list Json)
| JObject (members : list (string * Json)).

Record AuditRecord := {
  actor : string;
  action : string;
  radio_id : string;
  parameters : Json;
  result : CommandResultCode;
  message : string
}.

(** What the logger holds for one audited record before it is serialised:
    the text in front and the JSON payload whose dump would follow it. *)
Record LogLine := {
  prefix : string;
  payload : Json
}.

Definition member (key : string) (j : Json) : option Json :=
  match j with
  | JObject members => snd <$> List.find (fun kv => bool_decide (fst kv = key)) members
  | _ => None
  end.

End Audit.

(** ** rcc/command/orchestrator.hpp and orchestrator.cpp *)

Module Command.

Inductive Code :=
| Ok
| InvalidRange
| Busy
| Unavailable
| InternalError
| Unauthorized.

Record CommandResult := {
  code : Code;
  message : string
}.

(** What is streamed to [std::cout] before one [std::endl]. *)
Inductive Piece :=
| Text (s : string)
| Double (d : float)
| Int (z : Z).

(** The objects an [Orchestrator] holds references to and the standard
    output.  Its configuration manager and telemetry hub, which no member
    function reads or writes, are left out; the registry and the audit
    logger, which none reads or writes either, are kept for the properties
    that speak of them. *)
Record Env := {
  radioManager_ : Radio.World;
  auditLogger_ : list Audit.LogLine;
  cout : list (list Piece)
}.

Definition print (line : list Piece) (env : Env) : Env :=
  {| radioManager_ := radioManager_ env;
     auditLogger_ := auditLogger_ env;
     cout := cout env ++ [line] |}.

Definition selectRadio (radioId : string) (env : Env) : CommandResult * Env :=
  let env := print [Text "[Orchestrator] selectRadio("; Text radioId; Text ") called"] env in
  ({| code := Ok; message := "stub" |}, env).

Definition setPower (radioId : string) (watts : float) (env : Env)
  : CommandResult * Env :=
  let env :=
    print [Text "[Orchestrator] setPower("; Text radioId; Text ", ";
           Double watts; Text ") called"] env in
  ({| code := Ok; message := "stub" |}, env).

Definition setChannel (radioId : string) (channelIndex : Z) (env : Env)
  : CommandResult * Env :=
  let env :=
    print [Text "[Orchestrator] setChannel("; Text radioId; Text ", ";
           Int channelIndex; Text ") called"] env in
  ({| code := Ok; message := "stub" |}, env).

(** The three commands the orchestrator dispatches. *)
Inductive Command :=
| SelectRadio (radioId : string)
| SetPower (radioId : string) (watts : float)
| SetChannel (radioId : string) (channelIndex : Z).

Definition target (c : Command) : string :=
  match c with
  | SelectRadio radioId | SetPower radioId _ | SetChannel radioId _ => radioId
  end.

Definition dispatch (c : Command) (env : Env) : CommandResult * Env :=
  match c with
  | SelectRadio radioId => selectRadio radioId env
  | SetPower radioId watts => setPower radioId watts env
  | SetChannel radioId channelIndex => setChannel radioId channelIndex env
  end.

(** The lines the audit logger received during one dispatch. *)
Definition audit_lines_of (c : Command) (env : Env) : list Audit.LogLine :=
  drop (length (auditLogger_ env)) (auditLogger_ (snd (dispatch c env))).

(** The result code of the orchestrator as the audit record's type spells
    it, where it has a spelling there. *)
Definition to_common (c : Code) : option CommandResultCode :=
  match c with
  | Ok => Some Common.Ok
  | InvalidRange => Some Common.InvalidRange
  | Busy => Some Common.Busy
  | Unavailable => Some Common.Unavailable
  | InternalError => Some Common.InternalError
  | Unauthorized => None
  end.

(** One dispatch was audited once: the logger received exactly one line,
    and its [radioId] and [result] members are the target of the command
    and the text of the returned code. *)
Definition audited_once (c : Command) (env : Env) : Prop :=
  exists line,
    audit_lines_of c env = [line]
    /\ Audit.member "radioId" (Audit.payload line) = Some (Audit.JString (target c))
    /\ Audit.member "result" (Audit.payload line)
       = (fun k => Audit.JString (Common.to_string k))
           <$> to_common (code (fst (dispatch c env))).

End Command.

(** ** Example inputs *)

Definition one_radio : Config.Configuration :=
  {| Config.container_id := "rcc-1";
     Config.deployment := "lab";
     Config.radios :=
       [ {| Config.id := "r1"; Config.adapter := "silvus";
            Config.endpoint := "tcp://r1" |} ] |}.

Definition two_radios : Config.Configuration :=
  {| Config.container_id := "rcc-1";
     Config.deployment := "lab";
     Config.radios :=
       [ {| Config.id := "r1"; Config.adapter := "silvus";
            Config.endpoint := "tcp://r1" |};
         {| Config.id := "r2"; Config.adapter := "harris";
            Config.endpoint := "tcp://r2" |};
         {| Config.id := "r1"; Config.adapter := "silvus";
            Config.endpoint := "tcp://other" |};
         {| Config.id := "r3"; Config.adapter := "silvus";
            Config.endpoint := "tcp://r3" |} ] |}.

Definition env_one_radio : Command.Env :=
  {| Command.radioManager_ := Radio.construct one_radio;
     Command.auditLogger_ := [];
     Command.cout := [] |}.

(** ** Sequences of adapter calls *)

Module AdapterRuns.

(** The results returned by the calls of a sequence, in order. *)
Fixpoint results (ops : list Adapter.Op) (a : Adapter.SilvusAdapter)
  : list CommandResult :=
  match ops with
  | [] => []
  | op :: rest =>
      let r := Adapter.exec op a in
      Adapter.result_of r :: results rest (Adapter.after r)
  end.

(** The argument of the last [set_power] of a sequence, if it has one. *)
Fixpoint last_power (ops : list Adapter.Op) : option float :=
  match ops with
  | [] => None
  | op :: rest =>
      match last_power rest, op with
      | Some w, _ => Some w
      | None, Adapter.OpSetPower w => Some w
      | None, _ => None
      end
  end.

(** The channel index of the last [set_channel] of a sequence, if it has
    one. *)
Fixpoint last_channel (ops : list Adapter.Op) : option Z :=
  match ops with
  | [] => None
  | op :: rest =>
      match last_channel rest, op with
      | Some c, _ => Some c
      | None, Adapter.OpSetChannel c _ => Some c
      | None, _ => None
      end
  end.

Definition is_refresh (op : Adapter.Op) : bool :=
  match op with
  | Adapter.OpRefreshState => true
  | _ => false
  end.

(** The status a sequence of calls ends in, from the status it starts in:
    Ready as soon as one call is not a refresh; otherwise a refresh lifts
    Offline to Ready and leaves any other status. *)
Definition status_after (ops : list Adapter.Op) (s0 : RadioStatus) : RadioStatus :=
  if existsb (fun op => negb (is_refresh op)) ops then Ready
  else
    match ops, s0 with
    | _ :: _, Offline => Ready
    | _, _ => s0
    end.

End AdapterRuns.

(** ** Vocabulary for the properties of the registry *)

Module RadioFacts.

(** The first profile of a list that is a Silvus radio with the given
    id. *)
Definition first_silvus (id : string) (profiles : list Config.RadioProfile)
  : option Config.RadioProfile :=
  List.find
    (fun p => bool_decide (Config.adapter p = "silvus") && bool_decide (Config.id p = id))
    profiles.

(** The descriptor [load_from_config] makes for a Silvus radio whose
    adapter was placed at [ptr]. *)
Definition descriptor_of (id : string) (ptr : Radio.AdapterPtr) : Radio.RadioDescriptor :=
  {| Radio.id := id;
     Radio.adapter_type := "silvus";
     Radio.adapter := ptr;
     Radio.state := default_state |}.

(** No two descriptors hold the same adapter. *)
Definition adapters_distinct (w : Radio.World) : Prop :=
  forall id1 id2 d1 d2,
    Radio.radios_ (Radio.manager w) !! id1 = Some d1 ->
    Radio.radios_ (Radio.manager w) !! id2 = Some d2 ->
    Radio.adapter d1 = Radio.adapter d2 -> id1 = id2.

(** [w'] has the adapter objects of [w], and each of its descriptors is
    under a key of [w] and holds the adapter that key had. *)
Definition kept (w w' : Radio.World) : Prop :=
  dom (Radio.store w') = dom (Radio.store w)
  /\ forall id d', Radio.radios_ (Radio.manager w') !! id = Some d' ->
       exists d, Radio.radios_ (Radio.manager w) !! id = Some d
                 /\ Radio.adapter d' = Radio.adapter d.

Definition is_stop (op : Radio.Op) : bool :=
  match op with
  | Radio.OpStop => true
  | _ => false
  end.

(** The radio [id] is Ready and the state cached in its descriptor is the
    state of its adapter. *)
Definition coherent (w : Radio.World) (id : string) : Prop :=
  exists d a,
    Radio.radios_ (Radio.manager w) !! id = Some d
    /\ Radio.store w !! Radio.adapter d = Some a
    /\ status (Adapter.state a) = Ready
    /\ Radio.state d = Adapter.state a.

(** The active radio a sequence of operations leaves, from the set of
    radio ids and the active radio it starts with: a selection counts when
    its id is known, and a stop forgets both the radios and the
    selection. *)
Fixpoint selected (keys : gset string) (current : option string)
    (ops : list Radio.Op) : option string :=
  match ops with
  | [] => current
  | Radio.OpSetActiveRadio id :: rest =>
      selected keys (if decide (id ∈ keys) then Some id else current) rest
  | Radio.OpStop :: rest => selected ∅ None rest
  | _ :: rest => selected keys current rest
  end.

End RadioFacts.

(** ** The earlier skeleton of the registry (second half of
    radio_manager.hpp and radio_manager.cpp) *)

Module Skeleton.

Record RadioInfo := {
  id : string;
  model : string
}.

Record RadioManager := {
  activeRadio_ : string;
  radios_ : list RadioInfo
}.

(** A member function yields its value, the object after the call and the
    lines it streamed to [std::cout]. *)
Definition Call (A : Type) : Type := A * RadioManager * list (list Command.Piece).

(** [RadioManager::RadioManager(io, config)]. *)
Definition make : RadioManager :=
  {| activeRadio_ := "";
     radios_ := [ {| id := "radio-1"; model := "Silvus-Stub" |} ] |}.

Definition start (m : RadioManager) : Call unit :=
  (tt, m, [[Command.Text "[RadioManager] start() – discovery pending"]]).

Definition stop (m : RadioManager) : Call unit :=
  (tt, m, [[Command.Text "[RadioManager] stop()"]]).

Definition listRadios (m : RadioManager) : list RadioInfo := radios_ m.

(** The loop of [setActiveRadio] over what is left of [radios_]; it returns
    from inside the loop at the first radio with the id. *)
Fixpoint setActiveRadio_loop (rest : list RadioInfo) (radioId : string)
    (m : RadioManager) : Call bool :=
  match rest with
  | [] => (false, m, [])
  | radio :: rest' =>
      if decide (id radio = radioId) then
        (true,
         {| activeRadio_ := radioId; radios_ := radios_ m |},
         [[Command.Text "[RadioManager] Active radio set to "; Command.Text radioId]])
      else setActiveRadio_loop rest' radioId m
  end.

Definition setActiveRadio (radioId : string) (m : RadioManager) : Call bool :=
  setActiveRadio_loop (radios_ m) radioId m.

Definition activeRadio (m : RadioManager) : string := activeRadio_ m.

Inductive Op :=
| OpStart
| OpStop
| OpSetActiveRadio (radioId : string).

Definition step (op : Op) (m : RadioManager) : RadioManager :=
  match op with
  | OpStart => snd (fst (start m))
  | OpStop => snd (fst (stop m))
  | OpSetActiveRadio radioId => snd (fst (setActiveRadio radioId m))
  end.

Definition run (ops : list Op) (m : RadioManager) : RadioManager :=
  foldl (fun m op => step op m) m ops.

Definition known (radioId : string) (m : RadioManager) : bool :=
  bool_decide (radioId ∈ id <$> radios_ m).

(** The id of the last [setActiveRadio] of a sequence that named a radio
    of [m], if there is one. *)
Fixpoint last_selected (m : RadioManager) (ops : list Op) : option string :=
  match ops with
  | [] => None
  | op :: rest =>
      match last_selected m rest, op with
      | Some radioId, _ => Some radioId
      | None, OpSetActiveRadio radioId =>
          if known radioId m then Some radioId else None
      | None, _ => None
      end
  end.

End Skeleton.

(** ** Sequences of dispatched commands *)

Module CommandRuns.

Fixpoint run (cs : list Command.Command) (env : Command.Env)
  : list Command.CommandResult * Command.Env :=
  match cs with
  | [] => ([], env)
  | c :: rest =>
      let '(r, env1) := Command.dispatch c env in
      let '(rs, env2) := run rest env1 in
      (r :: rs, env2)
  end.

(** The radio id a printed line names: its second piece. *)
Definition named_radio (line : list Command.Piece) : option string :=
  match line !! 1%nat with
  | Some (Command.Text radioId) => Some radioId
  | _ => None
  end.

End CommandRuns.

(** ** rcc/auth/authenticator.hpp and authenticator.cpp (first part) *)

Module Auth.

Inductive AccessLevel :=
| Telemetry
| Control.

#[global] Instance AccessLevel_eq_dec : EqDecision AccessLevel.
Proof. solve_decision. Defined.

(** [config::SecurityConfig] of rcc/config/config_manager.hpp. *)
Record SecurityConfig := {
  token_secret : string;
  allowed_roles : list string
}.

(** Of [dts::common::rest::HttpRequest] only the header map is read. *)
Record HttpRequest := {
  headers : gmap string string
}.

Section WithBearerValidator.

(** [dts::common::security] is a library outside the repository.  Its
    scope type, the default scope [Scope::Viewer], the token check of a
    [BearerValidator] built from a secret, and its two static scope tests
    are taken as given. *)
Variable Scope : Type.
Variable Viewer : Scope.

Record TokenInfo := {
  valid : bool;
  info_subject : string;
  info_scope : Scope
}.

Variable validate : string -> string -> TokenInfo.
Variable hasViewerOrHigher : TokenInfo -> bool.
Variable hasOperatorOrHigher : TokenInfo -> bool.

Record AuthResult := {
  allowed : bool;
  subject : string;
  message : string;
  scope : Scope
}.

(** [validator_] holds the secret its [BearerValidator] was built from, or
    nothing. *)
Record Authenticator := {
  validator_ : option string;
  allow_unauthenticated_viewer_ : bool;
  allow_unauthenticated_control_ : bool;
  allowed_roles_ : list string
}.

Definition role_listed (roles : list string) (role : string) : bool :=
  match roles with
  | [] => true
  | _ => bool_decide (role ∈ roles)
  end.

Definition is_role_allowed (self : Authenticator) (role : string) : bool :=
  role_listed (allowed_roles_ self) role.

(** [Authenticator::Authenticator(config)], statement by statement. *)
Definition make (config : SecurityConfig) : Authenticator :=
  let self :=
    {| validator_ := None;
       allow_unauthenticated_viewer_ := false;
       allow_unauthenticated_control_ := false;
       allowed_roles_ := allowed_roles config |} in
  let self :=
    if decide (token_secret config = "") then
      {| validator_ := validator_ self;
         allow_unauthenticated_viewer_ := true;
         allow_unauthenticated_control_ := true;
         allowed_roles_ := allowed_roles_ self |}
    else
      {| validator_ := Some (token_secret config);
         allow_unauthenticated_viewer_ := allow_unauthenticated_viewer_ self;
         allow_unauthenticated_control_ := allow_unauthenticated_control_ self;
         allowed_roles_ := allowed_roles_ self |} in
  match allowed_roles_ self with
  | [] =>
      {| validator_ := validator_ self;
         allow_unauthenticated_viewer_ := true;
         allow_unauthenticated_control_ := allow_unauthenticated_control_ self;
         allowed_roles_ := allowed_roles_ self |}
  | _ =>
      {| validator_ := validator_ self;
         allow_unauthenticated_viewer_ := is_role_allowed self "viewer";
         allow_unauthenticated_control_ := is_role_allowed self "controller";
         allowed_roles_ := allowed_roles_ self |}
  end.

(** An empty view when the key is missing. *)
Definition header_value (request : HttpRequest) (key : string) : string :=
  match headers request !! key with
  | None => ""
  | Some value => value
  end.

Definition anonymous : AuthResult :=
  {| allowed := true; subject := "anonymous"; message := ""; scope := Viewer |}.

Definition denied (why : string) : AuthResult :=
  {| allowed := false; subject := ""; message := why; scope := Viewer |}.

Definition required_role (level : AccessLevel) : string :=
  match level with
  | Telemetry => "viewer"
  | Control => "controller"
  end.

Definition permitted (level : AccessLevel) (info : TokenInfo) : bool :=
  match level with
  | Telemetry => hasViewerOrHigher info
  | Control => hasOperatorOrHigher info
  end.

(** What follows the anonymous checks of [authorize].  [None] stands for
    the dereference of a [validator_] that holds nothing, which C++ leaves
    undefined. *)
Definition authorize_token (self : Authenticator) (request : HttpRequest)
    (level : AccessLevel) : option AuthResult :=
  let authHeader := header_value request "authorization" in
  if decide (authHeader = "") then Some (denied "Missing Authorization header")
  else
    match validator_ self with
    | None => None
    | Some secret =>
        let info := validate secret authHeader in
        if negb (valid info) then Some (denied "Invalid bearer token")
        else if negb (permitted level info) then Some (denied "Insufficient scope")
        else if negb (bool_decide (allowed_roles_ self = []))
                && negb (is_role_allowed self (required_role level))
        then Some (denied "Role not permitted by configuration")
        else Some {| allowed := true;
                     subject := info_subject info;
                     message := "";
                     scope := info_scope info |}
    end.

Definition authorize (self : Authenticator) (request : HttpRequest)
    (level : AccessLevel) : option AuthResult :=
  match validator_ self with
  | None =>
      if bool_decide (level = Telemetry) && allow_unauthenticated_viewer_ self
      then Some anonymous
      else if bool_decide (level = Control) && allow_unauthenticated_control_ self
      then Some anonymous
      else authorize_token self request level
  | Some _ => authorize_token self request level
  end.

End WithBearerValidator.

Arguments valid {Scope} _.
Arguments info_subject {Scope} _.
Arguments info_scope {Scope} _.
Arguments allowed {Scope} _.
Arguments subject {Scope} _.
Arguments message {Scope} _.
Arguments scope {Scope} _.

End Auth.

(** ** rcc/auth/authenticator.hpp and authenticator.cpp (third part) *)

Module TokenAuth.

Record AuthContext := {
  valid : bool;
  subject : string;
  scopes : list string
}.

Definition authenticate (token : string) : AuthContext :=
  if decide (token = "") then
    {| valid := false; subject := ""; scopes := [] |}
  else
    {| valid := true; subject := token; scopes := ["radio:read"] |}.

Definition hasScope (ctx : AuthContext) (scope : string) : bool :=
  valid ctx && bool_decide (scope ∈ scopes ctx).

End TokenAuth.

(** ** rcc/telemetry/telemetry_hub.hpp and telemetry_hub.cpp (first part) *)

Module Telemetry.

Definition READY : string := "rcc.ready".
Definition RADIO_STATE : string := "rcc.radio.state".
Definition CHANNEL_CHANGED : string := "rcc.radio.channel".
Definition POWER_CHANGED : string := "rcc.radio.power".

(** [event_bus_] is a [dts::common::telemetry::EventBus], a class outside
    the repository; it is taken to be the list of the tagged payloads
    handed to its [publish], in order. *)
Definition EventBus : Type := list (string * Audit.Json).

(** [payload[key] = value] on the members of a JSON object: the member is
    replaced where it exists and added where it does not. *)
Fixpoint set_member (key : string) (value : Audit.Json)
    (members : list (string * Audit.Json)) : list (string * Audit.Json) :=
  match members with
  | [] => [(key, value)]
  | kv :: rest =>
      if decide (fst kv = key) then (fst kv, value) :: rest
      else kv :: set_member key value rest
  end.

Definition publish (tag : string) (payload : Audit.Json) (bus : EventBus) : EventBus :=
  bus ++ [(tag, payload)].

Definition publish_ready (container_id : string) (bus : EventBus) : EventBus :=
  let payload :=
    [ ("containerId", Audit.JString container_id);
      ("status", Audit.JString "ready") ] in
  publish READY (Audit.JObject payload) bus.

Definition publish_radio_state (radio_id : string) (state : RadioState)
    (bus : EventBus) : EventBus :=
  let payload :=
    [ ("radioId", Audit.JString radio_id);
      ("status", Audit.JString (Common.status_to_string (status state))) ] in
  let payload :=
    match channel_index state with
    | Some c => set_member "channelIndex" (Audit.JInt c) payload
    | None => payload
    end in
  let payload :=
    match power_watts state with
    | Some w => set_member "powerWatts" (Audit.JFloat w) payload
    | None => payload
    end in
  publish RADIO_STATE (Audit.JObject payload) bus.

Definition publish_channel_changed (radio_id : string) (channel_index : Z)
    (frequency_mhz : float) (bus : EventBus) : EventBus :=
  let payload :=
    [ ("radioId", Audit.JString radio_id);
      ("channelIndex", Audit.JInt channel_index);
      ("frequencyMHz", Audit.JFloat frequency_mhz) ] in
  publish CHANNEL_CHANGED (Audit.JObject payload) bus.

Definition publish_power_changed (radio_id : string) (watts : float)
    (bus : EventBus) : EventBus :=
  let payload :=
    [ ("radioId", Audit.JString radio_id);
      ("powerWatts", Audit.JFloat watts) ] in
  publish POWER_CHANGED (Audit.JObject payload) bus.

End Telemetry.

(** ** rcc/core/types.hpp and types.cpp *)

Module Core.

Inductive ErrorCode :=
| Ok
| BadRequest
| InvalidRange
| Busy
| Unavailable
| Internal.

Definition to_string (code : ErrorCode) : string :=
  match code with
  | Ok => "OK"
  | BadRequest => "BAD_REQUEST"
  | InvalidRange => "INVALID_RANGE"
  | Busy => "BUSY"
  | Unavailable => "UNAVAILABLE"
  | Internal => "INTERNAL"
  end.

End Core.

(** A validator that finds every token valid, for subject "op". *)
Definition always_valid (secret header : string) : Auth.TokenInfo unit :=
  {| Auth.valid := true; Auth.info_subject := "op"; Auth.info_scope := tt |}.

(** ** Invariants of the registry *)

Section RegistryInvariants.

Import Radio.

Implicit Types (w : World) (m : RadioManager) (d : RadioDescriptor).

Lemma same_shape_refl w : same_shape w w.
Proof. unfold same_shape. split_and!; eauto. Qed.

Lemma same_shape_trans w1 w2 w3 :
  same_shape w1 w2 -> same_shape w2 w3 -> same_shape w1 w3.
Proof.
  intros (Hs & Ha & Hr & Hd) (Hs' & Ha' & Hr' & Hd').
  unfold same_shape. split_and!; try congruence.
  intros id d3 H3. destruct (Hd' _ _ H3) as (d2 & H2 & E2).
  destruct (Hd _ _ H2) as (d1 & H1 & E1). exists d1. split; congruence.
Qed.

Lemma same_shape_wf w w' : same_shape w w' -> registry_wf w -> registry_wf w'.
Proof.
  intros (Hs & _ & _ & Hd) Hwf id d' H'.
  destruct (Hd _ _ H') as (d & H & E).
  rewrite E. apply elem_of_dom. rewrite Hs. apply elem_of_dom. eauto.
Qed.

Lemma same_shape_active w w' :
  same_shape w w' -> active_radio_known (manager w) -> active_radio_known (manager w').
Proof.
  intros (_ & Ha & Hr & _) Hk id Hid.
  apply elem_of_dom. rewrite Hr. apply elem_of_dom. apply Hk. congruence.
Qed.

(** *** load_from_config *)

Lemma load_one_wf w radio : registry_wf w -> registry_wf (load_one w radio).
Proof.
  intros Hwf. unfold load_one. case_decide; [| exact Hwf].
  destruct (radios_ (manager w) !! Config.id radio) eqn:E; [exact Hwf |].
  intros id d. cbn. rewrite lookup_insert. case_decide.
  - intros [= <-]. cbn. rewrite lookup_insert_eq. eauto.
  - intros Hd. apply lookup_insert_is_Some'. right. eauto.
Qed.

Lemma load_one_active w radio :
  active_radio_ (manager (load_one w radio)) = active_radio_ (manager w).
Proof.
  unfold load_one. case_decide; [| reflexivity].
  destruct (radios_ (manager w) !! Config.id radio); reflexivity.
Qed.

Lemma foldl_load_one_wf (l : list Config.RadioProfile) :
  forall w, registry_wf w -> registry_wf (foldl load_one w l).
Proof.
  induction l as [| radio l IH]; intros w Hwf; cbn; [exact Hwf |].
  apply IH, load_one_wf, Hwf.
Qed.

Lemma foldl_load_one_active (l : list Config.RadioProfile) :
  forall w, active_radio_ (manager (foldl load_one w l)) = active_radio_ (manager w).
Proof.
  induction l as [| radio l IH]; intros w; cbn; [reflexivity |].
  rewrite IH. apply load_one_active.
Qed.

Lemma load_from_config_wf config w : registry_wf (load_from_config config w).
Proof.
  apply foldl_load_one_wf. intros id d. cbn. rewrite lookup_empty. discriminate.
Qed.

Lemma load_from_config_active config w :
  active_radio_ (manager (load_from_config config w)) = active_radio_ (manager w).
Proof. unfold load_from_config. rewrite foldl_load_one_active. reflexivity. Qed.

Lemma construct_wf config : registry_wf (construct config).
Proof. apply load_from_config_wf. Qed.

Lemma construct_active config : active_radio_known (manager (construct config)).
Proof.
  intros id. unfold construct. rewrite load_from_config_active. discriminate.
Qed.

(** *** Calls through a handle, and start *)

Lemma call_allocated {A} (l : AdapterPtr) (f : Adapter.Method A) w :
  is_Some (store w !! l) ->
  exists a, store w !! l = Some a
    /\ call l f w
       = Some (Adapter.result_of (f a),
               set_store (<[l := Adapter.after (f a)]> (store w)) w).
Proof.
  intros [a Ha]. exists a. split; [exact Ha |].
  unfold call. rewrite Ha. reflexivity.
Qed.

Lemma set_store_same_shape w (l : AdapterPtr) (a' : Adapter.SilvusAdapter) :
  is_Some (store w !! l) -> same_shape w (set_store (<[l := a']> (store w)) w).
Proof.
  intros Hl. unfold same_shape. cbn. split_and!; eauto.
  apply set_eq. intros k. rewrite !elem_of_dom, lookup_insert_is_Some'.
  split; [intros [-> | H]; assumption | auto].
Qed.

Lemma set_radios_alter_same_shape w (f : RadioState) (key : string) :
  same_shape w (set_radios_ (alter (set_descriptor_state f) key (radios_ (manager w))) w).
Proof.
  unfold same_shape. cbn. split_and!; eauto.
  - apply dom_alter_L.
  - intros id d'. rewrite lookup_alter. case_decide as Hk.
    + subst id. destruct (radios_ (manager w) !! key) as [d |]; [| discriminate].
      intros [= <-]. exists d. split; reflexivity.
    + intros H. exists d'. split; [exact H | reflexivity].
Qed.

Lemma start_one_same_shape w (entry : string * RadioDescriptor) :
  is_Some (store w !! adapter (snd entry)) ->
  exists w', start_one (Some w) entry = Some w' /\ same_shape w w'.
Proof.
  intros Hl. destruct (call_allocated _ Adapter.connect w Hl) as (a & Ha & Hcall).
  unfold start_one. cbn [mbind option_bind]. rewrite Hcall. cbn [mbind option_bind].
  pose proof (set_store_same_shape w _ (Adapter.after (Adapter.connect a)) Hl) as Hshape.
  case_decide.
  - unfold adapter_state. cbn [store set_store]. rewrite lookup_insert_eq.
    cbn [fmap option_fmap option_map mbind option_bind].
    eexists. split; [reflexivity |].
    eapply same_shape_trans; [exact Hshape |].
    apply set_radios_alter_same_shape.
  - eexists. split; [reflexivity | exact Hshape].
Qed.

Lemma foldl_start_one_same_shape (l : list (string * RadioDescriptor)) :
  forall w,
  Forall (fun entry => is_Some (store w !! adapter (snd entry))) l ->
  exists w', foldl start_one (Some w) l = Some w' /\ same_shape w w'.
Proof.
  induction l as [| entry l IH]; intros w Hall.
  - exists w. split; [reflexivity | apply same_shape_refl].
  - apply Forall_cons in Hall as [Hentry Hrest].
    destruct (start_one_same_shape w entry Hentry) as (w1 & Hone & Hshape1).
    destruct (IH w1) as (w' & Hfold & Hshape').
    + eapply Forall_impl; [exact Hrest |]. intros e He. cbn in He.
      apply elem_of_dom. destruct Hshape1 as (-> & _). apply elem_of_dom, He.
    + exists w'. cbn [foldl]. rewrite Hone. split; [exact Hfold |].
      eapply same_shape_trans; eassumption.
Qed.

Lemma start_same_shape w :
  registry_wf w -> exists w', start w = Some w' /\ same_shape w w'.
Proof.
  intros Hwf. apply foldl_start_one_same_shape.
  rewrite Forall_forall. intros [key d] Hin. cbn.
  apply elem_of_map_to_list in Hin. eapply Hwf, Hin.
Qed.

(** *** One public operation, then any number of them *)

Lemma set_active_radio_known (id : string) m :
  active_radio_known m -> active_radio_known (snd (set_active_radio id m)).
Proof.
  intros Hk. unfold set_active_radio.
  destruct (radios_ m !! id) as [d |] eqn:E; cbn; [| exact Hk].
  intros id' [= <-]. cbn. rewrite E. eauto.
Qed.

Lemma set_active_radio_radios (id : string) m :
  radios_ (snd (set_active_radio id m)) = radios_ m.
Proof. unfold set_active_radio. destruct (radios_ m !! id); reflexivity. Qed.

Lemma step_public_invariant (op : Op) w :
  is_public op = true ->
  registry_wf w -> active_radio_known (manager w) ->
  exists w', step op w = Some w'
    /\ registry_wf w' /\ active_radio_known (manager w').
Proof.
  intros Hpub Hwf Hk. destruct op as [id | | | config | id op]; cbn in Hpub |- *.
  - eexists. split; [reflexivity |]. split.
    + intros id' d. cbn. rewrite set_active_radio_radios. apply Hwf.
    + cbn. apply set_active_radio_known, Hk.
  - eexists. split; [reflexivity |]. split.
    + intros id' d. cbn. rewrite lookup_empty. discriminate.
    + intros id'. cbn. discriminate.
  - destruct (start_same_shape w Hwf) as (w' & Hstart & Hshape).
    exists w'. split; [exact Hstart |]. split.
    + eapply same_shape_wf; eassumption.
    + eapply same_shape_active; eassumption.
  - discriminate Hpub.
  - unfold get_adapter. destruct (radios_ (manager w) !! id) as [d |] eqn:E.
    + destruct (call_allocated (adapter d) (Adapter.exec op) w) as (a & Ha & Hcall);
        [eapply Hwf, E |].
      rewrite Hcall. cbn. eexists. split; [reflexivity |].
      pose proof (set_store_same_shape w (adapter d)
                    (Adapter.after (Adapter.exec op a)) (Hwf _ _ E)) as Hshape.
      split; [eapply same_shape_wf | eapply same_shape_active]; eassumption.
    + exists w. auto.
Qed.

Lemma run_public_invariant (ops : list Op) :
  forall w,
  forallb is_public ops = true ->
  registry_wf w -> active_radio_known (manager w) ->
  exists w', run ops w = Some w'
    /\ registry_wf w' /\ active_radio_known (manager w').
Proof.
  induction ops as [| op rest IH]; intros w Hpub Hwf Hk.
  - exists w. auto.
  - cbn in Hpub. apply andb_true_iff in Hpub as [Hop Hrest].
    destruct (step_public_invariant op w Hop Hwf Hk) as (w1 & Hstep & Hwf1 & Hk1).
    destruct (IH w1 Hrest Hwf1 Hk1) as (w' & Hrun & Hwf' & Hk').
    exists w'. cbn. rewrite Hstep. cbn. auto.
Qed.

End RegistryInvariants.

(** ** Properties of the adapter *)

(** The scenario of the specification on radio "r1": [set_power(2.0)]
    returns Ok after writing Busy and Ready, and the state read next shows
    2.0 W and Ready. *)
Example adapter_scenario :
  let a := Adapter.make "r1" "tcp://r1" in
  let r := Adapter.set_power 2.0%float a in
  code (Adapter.result_of r) = Ok
  /\ Adapter.state (Adapter.after r)
     = {| status := Ready; channel_index := None; power_watts := Some 2.0%float |}
  /\ Adapter.writes r = [StatusBusy; Ready].
Proof. repeat split; reflexivity. Qed.

(** C8. Idempotence of connect: on an adapter whose status is Ready,
    [connect()] returns code Ok, leaves the status Ready and leaves
    [power_watts] and [channel_index] as they were. *)
Theorem connect_ready_idempotent (a : Adapter.SilvusAdapter) :
  status (Adapter.state a) = Ready ->
  let r := Adapter.connect a in
  code (Adapter.result_of r) = Ok
  /\ status (Adapter.state (Adapter.after r)) = Ready
  /\ power_watts (Adapter.state (Adapter.after r)) = power_watts (Adapter.state a)
  /\ channel_index (Adapter.state (Adapter.after r)) = channel_index (Adapter.state a).
Proof.
  intros Hready r. subst r. cbn. repeat split.
Qed.

Lemma connect_ready_idempotent_witness :
  let a := Adapter.after (Adapter.set_channel 3 2437.0%float (Adapter.make "r1" "tcp://r1")) in
  status (Adapter.state a) = Ready
  /\ code (Adapter.result_of (Adapter.connect a)) = Ok
  /\ status (Adapter.state (Adapter.after (Adapter.connect a))) = Ready
  /\ power_watts (Adapter.state (Adapter.after (Adapter.connect a))) = None
  /\ channel_index (Adapter.state (Adapter.after (Adapter.connect a))) = Some 3%Z.
Proof.
  intros a.
  split; [reflexivity |].
  exact (connect_ready_idempotent a eq_refl).
Defined.

(** C1, as the code has it. For every adapter and every power value [w],
    inside the power range of [capabilities()] or outside it,
    [set_power(w)] makes no range check: it returns code Ok, stores [w] in
    [power_watts], leaves the status Ready and leaves [channel_index] as it
    was.  [Orchestrator::setPower(id, w)] returns code Ok for every id and
    [w] and leaves the registry, its adapters and its cached states as
    they were. *)
Theorem set_power_accepts_any_value (a : Adapter.SilvusAdapter) (w : float)
    (radioId : string) (env : Command.Env) :
  let r := Adapter.set_power w a in
  let o := Command.setPower radioId w env in
  code (Adapter.result_of r) = Ok
  /\ power_watts (Adapter.state (Adapter.after r)) = Some w
  /\ status (Adapter.state (Adapter.after r)) = Ready
  /\ channel_index (Adapter.state (Adapter.after r)) = channel_index (Adapter.state a)
  /\ Adapter.capabilities (Adapter.after r) = Adapter.capabilities a
  /\ Command.code (fst o) = Command.Ok
  /\ Command.radioManager_ (snd o) = Command.radioManager_ env.
Proof.
  cbn. repeat split.
Qed.

(** C1 fails as stated: 7.0 W lies outside the range (0.1, 5.0) of a new
    Silvus adapter, yet [set_power(7.0)] returns Ok, not InvalidRange, and
    the adapter state changes; the orchestrator returns Ok as well. *)
Lemma set_power_out_of_range_counterexample :
  let a := Adapter.make "r1" "tcp://r1" in
  let r := Adapter.set_power 7.0%float a in
  Adapter.in_power_range (Adapter.capabilities a) 7.0%float = false
  /\ code (Adapter.result_of r) <> InvalidRange
  /\ Adapter.state (Adapter.after r) <> Adapter.state a
  /\ power_watts (Adapter.state (Adapter.after r)) = Some 7.0%float
  /\ Command.code (fst (Command.setPower "r1" 7.0%float env_one_radio))
     <> Command.InvalidRange.
Proof.
  vm_compute. repeat split; discriminate.
Qed.

(** C5, as the code has it. For every adapter, every channel index [c] and
    every frequency [f], contained in the supported frequencies of
    [capabilities()] or not, [set_channel(c, f)] discards [f]: it returns
    code Ok, stores [c] in [channel_index], leaves the status Ready and
    leaves [power_watts] as it was. *)
Theorem set_channel_ignores_frequency (a : Adapter.SilvusAdapter) (c : Z) (f : float) :
  let r := Adapter.set_channel c f a in
  code (Adapter.result_of r) = Ok
  /\ channel_index (Adapter.state (Adapter.after r)) = Some c
  /\ status (Adapter.state (Adapter.after r)) = Ready
  /\ power_watts (Adapter.state (Adapter.after r)) = power_watts (Adapter.state a)
  /\ Adapter.capabilities (Adapter.after r) = Adapter.capabilities a
  /\ forall f', Adapter.set_channel c f' a = Adapter.set_channel c f a.
Proof.
  cbn. repeat split.
Qed.

(** C5 fails as stated: 1000.0 MHz is not among the supported frequencies
    of a new Silvus adapter, yet [set_channel(7, 1000.0)] returns Ok, not
    InvalidRange, and the adapter state changes. *)
Lemma set_channel_unsupported_frequency_counterexample :
  let a := Adapter.make "r1" "tcp://r1" in
  let r := Adapter.set_channel 7 1000.0%float a in
  Adapter.frequency_supported (Adapter.capabilities a) 1000.0%float = false
  /\ code (Adapter.result_of r) <> InvalidRange
  /\ Adapter.state (Adapter.after r) <> Adapter.state a
  /\ channel_index (Adapter.state (Adapter.after r)) = Some 7%Z.
Proof.
  vm_compute. repeat split; discriminate.
Qed.

(** ** Properties of the status state machine *)

Lemma status_in_all_statuses (s : RadioStatus) : s ∈ StateMachine.all_statuses.
Proof.
  unfold StateMachine.all_statuses. destruct s; set_solver.
Qed.

Lemma exec_entry_follows_design (op : Adapter.Op) (a : Adapter.SilvusAdapter) :
  status (Adapter.state a) = Offline \/ status (Adapter.state a) = Ready ->
  StateMachine.entry_follows_design
    (op, status (Adapter.state a), Adapter.writes (Adapter.exec op a))
  /\ (status (Adapter.state (Adapter.after (Adapter.exec op a))) = Offline
      \/ status (Adapter.state (Adapter.after (Adapter.exec op a))) = Ready).
Proof.
  intros Hfrom. unfold StateMachine.entry_follows_design.
  split; [split; [| split; [exact Hfrom | split]] |].
  - rewrite Forall_forall. intros s _. apply status_in_all_statuses.
  - intros Hcase. destruct a as [i e c [st ch pw]]. cbn in Hfrom.
    destruct op; cbn in Hcase;
      destruct Hfrom as [-> | ->]; destruct Hcase as [Hc | Hc];
      try discriminate Hc; split; reflexivity.
  - intros Hcmd. destruct op; try discriminate Hcmd; reflexivity.
  - destruct a as [i e c [st ch pw]]. cbn in Hfrom.
    destruct op; destruct Hfrom as [-> | ->]; cbn; auto.
Qed.

Lemma run_entries_follow_design (ops : list Adapter.Op) :
  forall a : Adapter.SilvusAdapter,
  status (Adapter.state a) = Offline \/ status (Adapter.state a) = Ready ->
  Forall StateMachine.entry_follows_design (snd (Adapter.run ops a))
  /\ (status (Adapter.state (fst (Adapter.run ops a))) = Offline
      \/ status (Adapter.state (fst (Adapter.run ops a))) = Ready).
Proof.
  induction ops as [| op rest IH]; intros a Hfrom.
  - cbn. split; [constructor | exact Hfrom].
  - destruct (exec_entry_follows_design op a Hfrom) as [Hentry Hnext].
    destruct (IH _ Hnext) as [Hlog Hlast].
    cbn. destruct (Adapter.run rest (Adapter.after (Adapter.exec op a))) as [a' log].
    cbn in *. split; [constructor; assumption | exact Hlast].
Qed.

(** C4, as the code has it. For every radio and every sequence of adapter
    operations (connect, set_power, set_channel, refresh_state) run on a
    newly constructed adapter, the status is always one of Offline,
    Discovering, Ready, Busy, Recovering, and between operations it is
    Offline or Ready; every status change made by connect or
    refresh_state, and by set_power or set_channel invoked while Ready, is
    a transition permitted by the table of section 4.3; set_power and
    set_channel write Busy and then Ready whatever status they start from,
    so a command invoked while Offline does move the radio to Ready. *)
Theorem adapter_status_follows_design (id endpoint : string) (ops : list Adapter.Op) :
  Forall StateMachine.entry_follows_design
    (snd (Adapter.run ops (Adapter.make id endpoint)))
  /\ (status (Adapter.state (fst (Adapter.run ops (Adapter.make id endpoint)))) = Offline
      \/ status (Adapter.state (fst (Adapter.run ops (Adapter.make id endpoint)))) = Ready)
  /\ (forall (a : Adapter.SilvusAdapter) (w : float),
        status (Adapter.state (Adapter.after (Adapter.set_power w a))) = Ready)
  /\ (forall (a : Adapter.SilvusAdapter) (c : Z) (f : float),
        status (Adapter.state (Adapter.after (Adapter.set_channel c f a))) = Ready).
Proof.
  split_and!.
  - apply run_entries_follow_design. left. reflexivity.
  - apply run_entries_follow_design. left. reflexivity.
  - reflexivity.
  - reflexivity.
Qed.

(** C4 fails as stated: on a new adapter, which is Offline, [set_power(2.0)]
    writes Busy, a change from Offline that no row of the table permits,
    and leaves the radio Ready. *)
Lemma command_while_offline_counterexample :
  let a := Adapter.make "r1" "tcp://r1" in
  let r := Adapter.exec (Adapter.OpSetPower 2.0%float) a in
  status (Adapter.state a) = Offline
  /\ Adapter.writes r = [StatusBusy; Ready]
  /\ StateMachine.permitted Offline StatusBusy = false
  /\ StateMachine.call_within_table (Adapter.OpSetPower 2.0%float) a = false
  /\ StateMachine.call_follows_table (Adapter.OpSetPower 2.0%float) a = false
  /\ status (Adapter.state (Adapter.after r)) = Ready.
Proof.
  vm_compute. repeat split.
Qed.

(** ** Properties of the registry *)

(** C10. [set_active_radio] is atomic on failure: for every id that is not
    a key of the descriptor map it returns false and leaves the
    active-radio pointer and every descriptor, and with them the adapters,
    exactly as they were. *)
Theorem set_active_radio_unknown_unchanged (m : Radio.RadioManager) (id : string) :
  Radio.radios_ m !! id = None ->
  Radio.set_active_radio id m = (false, m)
  /\ forall h,
       Radio.step (Radio.OpSetActiveRadio id) {| Radio.store := h; Radio.manager := m |}
       = Some {| Radio.store := h; Radio.manager := m |}.
Proof.
  intros Hid.
  assert (Hcall : Radio.set_active_radio id m = (false, m))
    by (unfold Radio.set_active_radio; rewrite Hid; reflexivity).
  split; [exact Hcall |].
  intros h. cbn. rewrite Hcall. reflexivity.
Qed.

Lemma set_active_radio_unknown_unchanged_witness :
  let m := snd (Radio.set_active_radio "r1" (Radio.manager (Radio.construct one_radio))) in
  Radio.radios_ m !! "r9" = None
  /\ Radio.active_radio m = Some "r1"
  /\ Radio.set_active_radio "r9" m = (false, m).
Proof.
  intros m.
  split; [vm_compute; reflexivity |].
  split; [vm_compute; reflexivity |].
  exact (proj1 (set_active_radio_unknown_unchanged m "r9" eq_refl)).
Defined.

(** C9. For every id that is not a key of the descriptor map, [get_state]
    returns a value, the default-constructed [RadioState] (status Offline,
    no channel index, no power), and signals no error; a configured radio
    whose adapter is Offline and has reported neither channel nor power
    yields the very same value, so the two cannot be told apart. *)
Theorem get_state_unknown_is_default (w : Radio.World) (id : string) :
  Radio.radios_ (Radio.manager w) !! id = None ->
  Radio.get_state id w
  = Some {| status := Offline; channel_index := None; power_watts := None |}
  /\ forall id' d a,
       Radio.radios_ (Radio.manager w) !! id' = Some d ->
       Radio.store w !! Radio.adapter d = Some a ->
       Adapter.state a
       = {| status := Offline; channel_index := None; power_watts := None |} ->
       Radio.get_state id' w = Radio.get_state id w.
Proof.
  intros Hid. unfold Radio.get_state. rewrite Hid. split; [reflexivity |].
  intros id' d a Hd Ha Hst. rewrite Hd. unfold Radio.adapter_state.
  rewrite Ha. cbn. rewrite Hst. reflexivity.
Qed.

Lemma get_state_unknown_is_default_witness :
  let w := Radio.construct one_radio in
  Radio.radios_ (Radio.manager w) !! "r9" = None
  /\ is_Some (Radio.radios_ (Radio.manager w) !! "r1")
  /\ Radio.get_state "r9" w = Some default_state
  /\ Radio.get_state "r1" w = Radio.get_state "r9" w.
Proof.
  intros w.
  pose proof (get_state_unknown_is_default w "r9" eq_refl) as [Hdefault Hsame].
  split; [vm_compute; reflexivity |].
  split; [vm_compute; eauto |].
  split; [exact Hdefault |].
  eapply Hsame; vm_compute; reflexivity.
Defined.

(** C7. Round trip: in a registry none of whose descriptors lacks its
    adapter, for every radio id that is a key of the descriptor map,
    [get_adapter(id)] yields a handle, [set_channel(3, 2437.0)] through it
    returns Ok, and [get_state(id)] read afterwards has [channel_index]
    equal to 3. *)
Theorem set_channel_round_trip (w : Radio.World) (id : string) :
  Radio.registry_wf w ->
  is_Some (Radio.radios_ (Radio.manager w) !! id) ->
  exists l r w' st,
    Radio.get_adapter id (Radio.manager w) = Some l
    /\ Radio.call l (Adapter.set_channel 3 2437.0%float) w = Some (r, w')
    /\ code r = Ok
    /\ Radio.get_state id w' = Some st
    /\ channel_index st = Some 3%Z.
Proof.
  intros Hwf [d Hd].
  destruct (call_allocated (Radio.adapter d) (Adapter.set_channel 3 2437.0%float) w)
    as (a & Ha & Hcall); [eapply Hwf, Hd |].
  exists (Radio.adapter d). do 3 eexists.
  split; [unfold Radio.get_adapter; rewrite Hd; reflexivity |].
  split; [exact Hcall |].
  split; [reflexivity |].
  unfold Radio.get_state. cbn. rewrite Hd.
  unfold Radio.adapter_state. cbn. rewrite lookup_insert_eq. cbn.
  split; reflexivity.
Qed.

Lemma set_channel_round_trip_witness :
  let w := Radio.construct one_radio in
  is_Some (Radio.radios_ (Radio.manager w) !! "r1")
  /\ exists l r w' st,
       Radio.get_adapter "r1" (Radio.manager w) = Some l
       /\ Radio.call l (Adapter.set_channel 3 2437.0%float) w = Some (r, w')
       /\ code r = Ok
       /\ Radio.get_state "r1" w' = Some st
       /\ channel_index st = Some 3%Z.
Proof.
  intros w.
  assert (Hknown : is_Some (Radio.radios_ (Radio.manager w) !! "r1"))
    by (vm_compute; eauto).
  split; [exact Hknown |].
  exact (set_channel_round_trip w "r1" (construct_wf one_radio) Hknown).
Defined.

(** C6. In every registry state reachable from construction through any
    sequence of the operations that can run on it, if the active-radio
    pointer is set then it names a key of the descriptor map.
    [load_from_config] is private and its one call is in the constructor,
    so it is part of [construct]; the sequences are those of
    [set_active_radio], [stop], [start] and adapter calls through handles,
    and every operation of a sequence returns. *)
Theorem active_radio_known_when_public (config : Config.Configuration)
    (ops : list Radio.Op) :
  forallb Radio.is_public ops = true ->
  exists w,
    Radio.run ops (Radio.construct config) = Some w
    /\ Radio.registry_wf w
    /\ Radio.active_radio_known (Radio.manager w).
Proof.
  intros Hpub.
  apply run_public_invariant; [exact Hpub | apply construct_wf | apply construct_active].
Qed.

Lemma active_radio_known_when_public_witness :
  let ops :=
    [Radio.OpSetActiveRadio "r1"; Radio.OpStart;
     Radio.OpAdapterCall "r1" (Adapter.OpSetPower 2.0%float);
     Radio.OpSetActiveRadio "r9"] in
  forallb Radio.is_public ops = true
  /\ exists w,
       Radio.run ops (Radio.construct one_radio) = Some w
       /\ Radio.registry_wf w
       /\ Radio.active_radio_known (Radio.manager w).
Proof.
  intros ops.
  split; [reflexivity |].
  exact (active_radio_known_when_public one_radio ops eq_refl).
Defined.

(** ** Properties of the orchestrator *)

(** C3, as the code has it. For every radio id, a key of the registry or
    not, [Orchestrator::selectRadio(id)] returns code Ok and leaves the
    registry, its active radio included, as it was.
    [RadioManager::set_active_radio(id)] returns true exactly when [id] is
    a key of the descriptor map; it then sets the active radio to [id], and
    otherwise leaves it alone; the descriptors stay as they were. *)
Theorem select_radio_always_ok (radioId : string) (env : Command.Env)
    (m : Radio.RadioManager) :
  Command.code (fst (Command.selectRadio radioId env)) = Command.Ok
  /\ Command.radioManager_ (snd (Command.selectRadio radioId env))
     = Command.radioManager_ env
  /\ fst (Radio.set_active_radio radioId m)
     = bool_decide (is_Some (Radio.radios_ m !! radioId))
  /\ Radio.active_radio (snd (Radio.set_active_radio radioId m))
     = (if fst (Radio.set_active_radio radioId m)
        then Some radioId else Radio.active_radio m)
  /\ Radio.radios_ (snd (Radio.set_active_radio radioId m)) = Radio.radios_ m.
Proof.
  split; [reflexivity |]. split; [reflexivity |].
  unfold Radio.set_active_radio.
  destruct (Radio.radios_ m !! radioId) as [d |]; cbn; split_and!; reflexivity.
Qed.

(** C3 fails as stated: "r9" is no key of the registry, yet
    [selectRadio("r9")] returns Ok, not Unavailable; and after
    [selectRadio("r1")], for the radio that is configured, no active radio
    is set. *)
Lemma select_radio_unknown_counterexample :
  let w := Command.radioManager_ env_one_radio in
  Radio.radios_ (Radio.manager w) !! "r9" = None
  /\ Command.code (fst (Command.selectRadio "r9" env_one_radio)) = Command.Ok
  /\ Command.code (fst (Command.selectRadio "r9" env_one_radio)) <> Command.Unavailable
  /\ is_Some (Radio.radios_ (Radio.manager w) !! "r1")
  /\ Radio.active_radio
       (Radio.manager (Command.radioManager_ (snd (Command.selectRadio "r1" env_one_radio))))
     = None.
Proof.
  vm_compute. split_and!; try reflexivity; try discriminate. eauto.
Qed.

(** C2, as the code has it. For every dispatched command (selectRadio,
    setPower, setChannel), on whatever radio id, the orchestrator returns
    one [CommandResult], with code Ok, and creates no [AuditRecord]: the
    audit logger receives nothing, and the registry is left as it was. *)
Theorem dispatch_records_no_audit (c : Command.Command) (env : Command.Env) :
  Command.code (fst (Command.dispatch c env)) = Command.Ok
  /\ Command.auditLogger_ (snd (Command.dispatch c env)) = Command.auditLogger_ env
  /\ Command.audit_lines_of c env = []
  /\ Command.radioManager_ (snd (Command.dispatch c env)) = Command.radioManager_ env.
Proof.
  split_and!.
  - destruct c; reflexivity.
  - destruct c; reflexivity.
  - unfold Command.audit_lines_of.
    replace (Command.auditLogger_ (snd (Command.dispatch c env)))
      with (Command.auditLogger_ env) by (destruct c; reflexivity).
    apply drop_all.
  - destruct c; reflexivity.
Qed.

(** C2 fails as stated: dispatching [setPower("r1", 2.0)] returns a result
    and the audit logger has received no line, not one. *)
Lemma dispatch_without_audit_counterexample :
  let c := Command.SetPower "r1" 2.0%float in
  Command.code (fst (Command.dispatch c env_one_radio)) = Command.Ok
  /\ Command.audit_lines_of c env_one_radio = []
  /\ length (Command.audit_lines_of c env_one_radio) <> 1
  /\ Command.auditLogger_ (snd (Command.dispatch c env_one_radio)) = []
  /\ ~ Command.audited_once c env_one_radio.
Proof.
  split_and!; try reflexivity.
  - vm_compute. discriminate.
  - intros (line & Hline & _). vm_compute in Hline. discriminate Hline.
Qed.

(** ** Further properties of the adapter *)

Lemma run_cons_fst (op : Adapter.Op) (rest : list Adapter.Op) (a : Adapter.SilvusAdapter) :
  fst (Adapter.run (op :: rest) a)
  = fst (Adapter.run rest (Adapter.after (Adapter.exec op a))).
Proof.
  cbn [Adapter.run].
  destruct (Adapter.run rest (Adapter.after (Adapter.exec op a))). reflexivity.
Qed.

Lemma exec_result_ok (op : Adapter.Op) (a : Adapter.SilvusAdapter) :
  Adapter.result_of (Adapter.exec op a) = result_with Ok.
Proof.
  destruct op; try reflexivity.
  destruct a as [i e c [st ch pw]]. destruct st; reflexivity.
Qed.

Lemma exec_keeps_identity (op : Adapter.Op) (a : Adapter.SilvusAdapter) :
  Adapter.capabilities (Adapter.after (Adapter.exec op a)) = Adapter.capabilities a
  /\ Adapter.id (Adapter.after (Adapter.exec op a)) = Adapter.id a
  /\ Adapter.endpoint_ (Adapter.after (Adapter.exec op a)) = Adapter.endpoint_ a.
Proof.
  destruct op; try (repeat split; reflexivity).
  destruct a as [i e c [st ch pw]]. destruct st; repeat split; reflexivity.
Qed.

(** X1. No call on a Silvus adapter ever fails or touches what identifies
    it: over any sequence of connect, set_power, set_channel and
    refresh_state, from any adapter state, every call returns the result
    [{Ok}] with an empty message, and the capabilities, the id and the
    endpoint after the sequence are those before it. *)
Theorem adapter_calls_always_ok (ops : list Adapter.Op) :
  forall a : Adapter.SilvusAdapter,
  Forall (fun r => r = result_with Ok) (AdapterRuns.results ops a)
  /\ length (AdapterRuns.results ops a) = length ops
  /\ Adapter.capabilities (fst (Adapter.run ops a)) = Adapter.capabilities a
  /\ Adapter.id (fst (Adapter.run ops a)) = Adapter.id a
  /\ Adapter.endpoint_ (fst (Adapter.run ops a)) = Adapter.endpoint_ a.
Proof.
  induction ops as [| op rest IH]; intros a.
  - cbn. repeat split. constructor.
  - destruct (IH (Adapter.after (Adapter.exec op a))) as (Hres & Hlen & Hcap & Hid & Hep).
    destruct (exec_keeps_identity op a) as (Hcap1 & Hid1 & Hep1).
    rewrite run_cons_fst. cbn [AdapterRuns.results length].
    split_and!; try congruence.
    constructor; [apply exec_result_ok | exact Hres].
Qed.

Lemma exec_values (op : Adapter.Op) (a : Adapter.SilvusAdapter) :
  power_watts (Adapter.state (Adapter.after (Adapter.exec op a)))
  = match op with
    | Adapter.OpSetPower w => Some w
    | _ => power_watts (Adapter.state a)
    end
  /\ channel_index (Adapter.state (Adapter.after (Adapter.exec op a)))
     = match op with
       | Adapter.OpSetChannel c _ => Some c
       | _ => channel_index (Adapter.state a)
       end.
Proof.
  destruct op; try (split; reflexivity).
  destruct a as [i e c [st ch pw]]. destruct st; split; reflexivity.
Qed.

(** X2. The last write wins and the two values do not interfere: after any
    sequence of adapter calls, [power_watts] holds the argument of the last
    set_power of the sequence, or what it held before if there was none,
    and [channel_index] the index of the last set_channel, or what it held
    before; connect and refresh_state never alter either, and a value once
    reported is never cleared. *)
Theorem adapter_values_after_run (ops : list Adapter.Op) :
  forall a : Adapter.SilvusAdapter,
  power_watts (Adapter.state (fst (Adapter.run ops a)))
  = match AdapterRuns.last_power ops with
    | Some w => Some w
    | None => power_watts (Adapter.state a)
    end
  /\ channel_index (Adapter.state (fst (Adapter.run ops a)))
     = match AdapterRuns.last_channel ops with
       | Some c => Some c
       | None => channel_index (Adapter.state a)
       end.
Proof.
  induction ops as [| op rest IH]; intros a.
  - split; reflexivity.
  - rewrite run_cons_fst.
    destruct (IH (Adapter.after (Adapter.exec op a))) as [Hp Hc].
    destruct (exec_values op a) as [Hp1 Hc1].
    rewrite Hp, Hc, Hp1, Hc1. cbn [AdapterRuns.last_power AdapterRuns.last_channel].
    split.
    + destruct (AdapterRuns.last_power rest); [reflexivity |]. destruct op; reflexivity.
    + destruct (AdapterRuns.last_channel rest); [reflexivity |]. destruct op; reflexivity.
Qed.

Lemma exec_status (op : Adapter.Op) (a : Adapter.SilvusAdapter) :
  status (Adapter.state (Adapter.after (Adapter.exec op a)))
  = if AdapterRuns.is_refresh op
    then (if decide (status (Adapter.state a) = Offline)
          then Ready else status (Adapter.state a))
    else Ready.
Proof.
  destruct op; try reflexivity.
  destruct a as [i e c [st ch pw]]. destruct st; reflexivity.
Qed.

(** X3. The status after any sequence of adapter calls, from any status:
    Ready as soon as the sequence holds a connect, set_power or
    set_channel; after refreshes only, Ready if it started Offline and
    otherwise the status it started in.  So the only status a call ever
    changes to is Ready, and no command leaves Busy behind. *)
Theorem adapter_status_after_run (ops : list Adapter.Op) :
  forall a : Adapter.SilvusAdapter,
  status (Adapter.state (fst (Adapter.run ops a)))
  = AdapterRuns.status_after ops (status (Adapter.state a)).
Proof.
  induction ops as [| op rest IH]; intros a.
  - reflexivity.
  - rewrite run_cons_fst, IH, exec_status.
    unfold AdapterRuns.status_after. cbn [existsb].
    destruct (AdapterRuns.is_refresh op) eqn:Hop; cbn [negb orb].
    + destruct (existsb _ rest); [reflexivity |].
      destruct (status (Adapter.state a)); destruct rest; reflexivity.
    + destruct (existsb _ rest); [reflexivity |]. destruct rest; reflexivity.
Qed.

(** X4. [refresh_state] returns Ok and changes nothing but the status,
    which it lifts from Offline to Ready and otherwise leaves; a second
    refresh changes nothing more, and the only status write it can make is
    Ready. *)
Theorem refresh_state_idempotent (a : Adapter.SilvusAdapter) :
  let r := Adapter.refresh_state a in
  code (Adapter.result_of r) = Ok
  /\ Adapter.after r
     = Adapter.set_state_
         (with_status
            (if decide (status (Adapter.state a) = Offline)
             then Ready else status (Adapter.state a))
            (Adapter.state a)) a
  /\ Adapter.after (Adapter.refresh_state (Adapter.after r)) = Adapter.after r
  /\ Adapter.writes (Adapter.refresh_state (Adapter.after r)) = []
  /\ Adapter.writes r
     = (if decide (status (Adapter.state a) = Offline) then [Ready] else []).
Proof.
  destruct a as [i e c [st ch pw]]. destruct st; cbn; repeat split.
Qed.

(** ** Further properties of the registry *)

Section RegistryFacts.

Import Radio RadioFacts.

Implicit Types (w : World) (d : RadioDescriptor).

(** *** What load_from_config builds *)

Lemma load_one_store w (radio : Config.RadioProfile) (ptr : AdapterPtr)
    (a : Adapter.SilvusAdapter) :
  store w !! ptr = Some a -> store (load_one w radio) !! ptr = Some a.
Proof.
  intros Hptr. unfold load_one. case_decide; [| exact Hptr].
  destruct (radios_ (manager w) !! Config.id radio); [exact Hptr |].
  cbn. rewrite lookup_insert_ne; [exact Hptr |].
  intros Heq. pose proof (is_fresh (dom (store w))) as Hfresh.
  apply Hfresh. rewrite Heq. apply elem_of_dom. eauto.
Qed.

Lemma foldl_load_one_store (l : list Config.RadioProfile) :
  forall w (ptr : AdapterPtr) (a : Adapter.SilvusAdapter),
  store w !! ptr = Some a -> store (foldl load_one w l) !! ptr = Some a.
Proof.
  induction l as [| radio l IH]; intros w ptr a Hptr; cbn; [exact Hptr |].
  apply IH, load_one_store, Hptr.
Qed.

Lemma load_one_cases w (radio : Config.RadioProfile) :
  (load_one w radio = w
   /\ (Config.adapter radio <> "silvus"
       \/ is_Some (radios_ (manager w) !! Config.id radio)))
  \/ (Config.adapter radio = "silvus"
      /\ radios_ (manager w) !! Config.id radio = None
      /\ load_one w radio
         = set_radios_
             (<[Config.id radio :=
                  descriptor_of (Config.id radio) (fresh (dom (store w)))]>
                (radios_ (manager w)))
             (set_store
                (<[fresh (dom (store w)) :=
                     Adapter.make (Config.id radio) (Config.endpoint radio)]>
                   (store w)) w)).
Proof.
  unfold load_one. case_decide as Hs; [| left; auto].
  destruct (radios_ (manager w) !! Config.id radio) eqn:Hkey; [left; eauto |].
  right. split_and!; [exact Hs | reflexivity |].
  unfold descriptor_of. rewrite Hs. reflexivity.
Qed.

Lemma first_silvus_cons (id : string) (radio : Config.RadioProfile)
    (l : list Config.RadioProfile) :
  first_silvus id (radio :: l)
  = if bool_decide (Config.adapter radio = "silvus") && bool_decide (Config.id radio = id)
    then Some radio else first_silvus id l.
Proof. reflexivity. Qed.

Lemma foldl_load_one_lookup (l : list Config.RadioProfile) :
  forall w (id : string),
  match radios_ (manager w) !! id with
  | Some d => radios_ (manager (foldl load_one w l)) !! id = Some d
  | None =>
      match first_silvus id l with
      | None => radios_ (manager (foldl load_one w l)) !! id = None
      | Some p =>
          exists ptr,
            radios_ (manager (foldl load_one w l)) !! id = Some (descriptor_of id ptr)
            /\ store (foldl load_one w l) !! ptr
               = Some (Adapter.make id (Config.endpoint p))
      end
  end.
Proof.
  induction l as [| radio l IH]; intros w id.
  - cbn. destruct (radios_ (manager w) !! id); reflexivity.
  - cbn [foldl]. specialize (IH (load_one w radio) id).
    rewrite first_silvus_cons.
    destruct (load_one_cases w radio) as [[Hsame Hwhy] | (Hs & Hkey & Hload)].
    + rewrite Hsame in *.
      destruct (radios_ (manager w) !! id) as [d |] eqn:Hid; [exact IH |].
      destruct Hwhy as [Hs | [d0 Hd0]].
      * rewrite (bool_decide_eq_false_2 _ Hs). exact IH.
      * assert (Hne : Config.id radio <> id) by congruence.
        rewrite (bool_decide_eq_false_2 _ Hne), andb_false_r. exact IH.
    + rewrite (bool_decide_eq_true_2 _ Hs). cbn [andb].
      set (w1 := load_one w radio) in *.
      assert (Hradios : radios_ (manager w1)
                = <[Config.id radio :=
                      descriptor_of (Config.id radio) (fresh (dom (store w)))]>
                    (radios_ (manager w))) by (rewrite Hload; reflexivity).
      assert (Hstore : store w1 !! fresh (dom (store w))
                = Some (Adapter.make (Config.id radio) (Config.endpoint radio)))
        by (rewrite Hload; cbn; apply lookup_insert_eq).
      rewrite Hradios in IH.
      destruct (decide (Config.id radio = id)) as [Hid | Hid].
      * subst id. rewrite Hkey. rewrite lookup_insert_eq in IH.
        rewrite (bool_decide_eq_true_2 _ eq_refl).
        exists (fresh (dom (store w))). split; [exact IH |].
        apply foldl_load_one_store, Hstore.
      * rewrite (bool_decide_eq_false_2 _ Hid).
        rewrite lookup_insert_ne in IH by exact Hid. exact IH.
Qed.

(** X5. What construction loads.  For every configuration and every id:
    if no profile of the configuration is a Silvus radio with that id,
    the registry has no such radio; otherwise it has exactly the
    descriptor of that id with adapter type "silvus" and the default
    cached state (Offline, no channel, no power), whose adapter is a new
    Silvus adapter built with the endpoint of the first such profile.
    Profiles of any other adapter type are skipped, and a later profile
    that repeats an id is ignored. *)
Theorem construct_loads_first_silvus (config : Config.Configuration) (id : string) :
  match first_silvus id (Config.radios config) with
  | None => radios_ (manager (construct config)) !! id = None
  | Some p =>
      exists ptr,
        radios_ (manager (construct config)) !! id = Some (descriptor_of id ptr)
        /\ store (construct config) !! ptr = Some (Adapter.make id (Config.endpoint p))
  end.
Proof.
  unfold construct, load_from_config.
  pose proof (foldl_load_one_lookup (Config.radios config)
                (set_radios_ ∅ {| store := ∅;
                                  manager := {| radios_ := ∅; active_radio_ := None |} |})
                id) as H.
  cbn in H. rewrite lookup_empty in H. exact H.
Qed.

(** *** Adapters are never shared between radios *)

Lemma kept_refl w : kept w w.
Proof. split; eauto. Qed.

Lemma kept_trans w1 w2 w3 : kept w1 w2 -> kept w2 w3 -> kept w1 w3.
Proof.
  intros [Hs Hd] [Hs' Hd']. split; [congruence |].
  intros id d3 H3. destruct (Hd' _ _ H3) as (d2 & H2 & E2).
  destruct (Hd _ _ H2) as (d1 & H1 & E1). exists d1. split; congruence.
Qed.

Lemma same_shape_kept w w' : same_shape w w' -> kept w w'.
Proof. intros (Hs & _ & _ & Hd). split; assumption. Qed.

Lemma kept_wf w w' : kept w w' -> registry_wf w -> registry_wf w'.
Proof.
  intros [Hs Hd] Hwf id d' H'. destruct (Hd _ _ H') as (d & H & E).
  rewrite E. apply elem_of_dom. rewrite Hs. apply elem_of_dom. eauto.
Qed.

Lemma kept_distinct w w' : kept w w' -> adapters_distinct w -> adapters_distinct w'.
Proof.
  intros [_ Hd] Hdist id1 id2 d1' d2' H1 H2 E.
  destruct (Hd _ _ H1) as (d1 & G1 & E1). destruct (Hd _ _ H2) as (d2 & G2 & E2).
  eapply Hdist; [exact G1 | exact G2 | congruence].
Qed.

Lemma load_one_distinct w (radio : Config.RadioProfile) :
  registry_wf w -> adapters_distinct w -> adapters_distinct (load_one w radio).
Proof.
  intros Hwf Hdist.
  destruct (load_one_cases w radio) as [[-> _] | (_ & Hkey & ->)]; [exact Hdist |].
  assert (Hfresh : forall d, is_Some (store w !! adapter d) ->
                             adapter d <> fresh (dom (store w))).
  { intros d Hd Heq. apply (is_fresh (dom (store w))). rewrite <- Heq.
    apply elem_of_dom, Hd. }
  intros id1 id2 d1 d2. cbn. rewrite !lookup_insert.
  case_decide as E1; case_decide as E2; try congruence.
  - intros [= <-] H2 E. cbn in E. symmetry in E.
    exfalso. eapply Hfresh; [eapply Hwf, H2 | exact E].
  - intros H1 [= <-] E. cbn in E.
    exfalso. eapply Hfresh; [eapply Hwf, H1 | exact E].
  - apply Hdist.
Qed.

Lemma foldl_load_one_distinct (l : list Config.RadioProfile) :
  forall w, registry_wf w -> adapters_distinct w ->
            adapters_distinct (foldl load_one w l).
Proof.
  induction l as [| radio l IH]; intros w Hwf Hdist; cbn; [exact Hdist |].
  apply IH; [apply load_one_wf, Hwf | apply load_one_distinct; assumption].
Qed.

Lemma construct_distinct (config : Config.Configuration) :
  adapters_distinct (construct config).
Proof.
  apply foldl_load_one_distinct.
  - intros id d. cbn. rewrite lookup_empty. discriminate.
  - intros id1 id2 d1 d2. cbn. rewrite lookup_empty. discriminate.
Qed.

Lemma step_public_kept (op : Op) w :
  is_public op = true -> registry_wf w ->
  exists w', step op w = Some w'
    /\ kept w w'
    /\ dom (radios_ (manager w'))
       = (if is_stop op then ∅ else dom (radios_ (manager w))).
Proof.
  intros Hpub Hwf. destruct op as [id | | | config | id op]; cbn in Hpub |- *.
  - eexists. split; [reflexivity |]. split.
    + split; [reflexivity |]. intros id' d'. cbn.
      rewrite set_active_radio_radios. eauto.
    + cbn. rewrite set_active_radio_radios. reflexivity.
  - eexists. split; [reflexivity |]. split; [| apply dom_empty_L].
    split; [reflexivity |]. intros id d'. cbn. rewrite lookup_empty. discriminate.
  - destruct (start_same_shape w Hwf) as (w' & Hstart & Hshape).
    exists w'. split; [exact Hstart |]. split; [apply same_shape_kept, Hshape |].
    apply Hshape.
  - discriminate Hpub.
  - unfold get_adapter. destruct (radios_ (manager w) !! id) as [d |] eqn:E.
    + destruct (call_allocated (adapter d) (Adapter.exec op) w) as (a & Ha & Hcall);
        [eapply Hwf, E |].
      rewrite Hcall. cbn. eexists. split; [reflexivity |].
      pose proof (set_store_same_shape w (adapter d)
                    (Adapter.after (Adapter.exec op a)) (Hwf _ _ E)) as Hshape.
      split; [apply same_shape_kept, Hshape | reflexivity].
    + exists w. split; [reflexivity |]. split; [apply kept_refl | reflexivity].
Qed.

Lemma run_public_kept (ops : list Op) :
  forall w,
  forallb is_public ops = true -> registry_wf w ->
  exists w', run ops w = Some w'
    /\ kept w w' /\ registry_wf w'
    /\ dom (radios_ (manager w'))
       = (if existsb is_stop ops then ∅ else dom (radios_ (manager w))).
Proof.
  induction ops as [| op rest IH]; intros w Hpub Hwf.
  - exists w. split_and!; [reflexivity | apply kept_refl | exact Hwf | reflexivity].
  - cbn in Hpub. apply andb_true_iff in Hpub as [Hop Hrest].
    destruct (step_public_kept op w Hop Hwf) as (w1 & Hstep & Hkept1 & Hdom1).
    pose proof (kept_wf _ _ Hkept1 Hwf) as Hwf1.
    destruct (IH w1 Hrest Hwf1) as (w' & Hrun & Hkept' & Hwf' & Hdom').
    exists w'. cbn [run existsb]. rewrite Hstep. cbn.
    split_and!; [exact Hrun | eapply kept_trans; eassumption | exact Hwf' |].
    rewrite Hdom', Hdom1.
    destruct (existsb is_stop rest), (is_stop op); reflexivity.
Qed.

(** X6. Radios are isolated from one another.  In every registry state
    reached from construction through set_active_radio, stop, start and
    calls through handles, no two descriptors hold the same adapter, and a
    call of any adapter operation through the handle of one radio returns
    and leaves the state that [get_state] reports for every other radio
    exactly as it was. *)
Theorem adapter_call_isolated (config : Config.Configuration) (ops : list Op)
    w (id1 id2 : string) (op : Adapter.Op) :
  forallb is_public ops = true ->
  run ops (construct config) = Some w ->
  is_Some (radios_ (manager w) !! id1) ->
  id1 <> id2 ->
  adapters_distinct w
  /\ exists l r w',
       get_adapter id1 (manager w) = Some l
       /\ call l (Adapter.exec op) w = Some (r, w')
       /\ get_state id2 w' = get_state id2 w.
Proof.
  intros Hpub Hrun [d1 Hd1] Hne.
  destruct (run_public_kept ops (construct config) Hpub (construct_wf config))
    as (w0 & Hrun0 & Hkept & Hwf & _).
  assert (w0 = w) by congruence. subst w0.
  pose proof (kept_distinct _ _ Hkept (construct_distinct config)) as Hdist.
  split; [exact Hdist |].
  destruct (call_allocated (adapter d1) (Adapter.exec op) w) as (a & Ha & Hcall);
    [eapply Hwf, Hd1 |].
  exists (adapter d1). do 2 eexists.
  split; [unfold get_adapter; rewrite Hd1; reflexivity |].
  split; [exact Hcall |].
  unfold get_state. cbn.
  destruct (radios_ (manager w) !! id2) as [d2 |] eqn:Hd2; [| reflexivity].
  unfold adapter_state. cbn. rewrite lookup_insert_ne; [reflexivity |].
  intros E. apply Hne. eapply Hdist; eassumption.
Qed.

(** X7. The keys of the registry are fixed by construction.  From any
    registry none of whose descriptors lacks its adapter, every sequence
    of set_active_radio, stop, start and calls through handles returns,
    and the set of radio ids after it is the set before it if the sequence
    holds no stop, and empty if it holds one: no public operation adds a
    radio, and only stop removes any. *)
Theorem registry_keys_fixed w (ops : list Op) :
  forallb is_public ops = true ->
  registry_wf w ->
  exists w',
    run ops w = Some w'
    /\ dom (radios_ (manager w'))
       = (if existsb is_stop ops then ∅ else dom (radios_ (manager w))).
Proof.
  intros Hpub Hwf.
  destruct (run_public_kept ops w Hpub Hwf) as (w' & Hrun & _ & _ & Hdom).
  exists w'. split; assumption.
Qed.

(** *** start, stop and the cached state *)

Lemma connect_ready_state (a : Adapter.SilvusAdapter) :
  status (Adapter.state a) = Ready ->
  Adapter.state (Adapter.after (Adapter.connect a)) = Adapter.state a.
Proof.
  destruct a as [i e c [st ch pw]]. cbn. intros ->. reflexivity.
Qed.

Lemma start_one_coherent w (entry : string * RadioDescriptor) :
  (exists d', radios_ (manager w) !! fst entry = Some d'
              /\ adapter d' = adapter (snd entry)) ->
  is_Some (store w !! adapter (snd entry)) ->
  exists w',
    start_one (Some w) entry = Some w'
    /\ same_shape w w'
    /\ coherent w' (fst entry)
    /\ forall k, coherent w k -> coherent w' k.
Proof.
  destruct entry as [key d]. cbn [fst snd]. intros (d' & Hkey & Hptr) Hl.
  destruct (start_one_same_shape w (key, d) Hl) as (w' & Hstart & Hshape).
  exists w'. split; [exact Hstart |]. split; [exact Hshape |].
  destruct (call_allocated _ Adapter.connect w Hl) as (a & Ha & Hcall).
  cbn [snd] in Ha, Hcall.
  unfold start_one in Hstart. cbn [mbind option_bind fst snd] in Hstart.
  rewrite Hcall in Hstart. cbn [mbind option_bind] in Hstart.
  rewrite decide_True in Hstart by reflexivity.
  unfold adapter_state in Hstart. cbn [store set_store] in Hstart.
  rewrite lookup_insert_eq in Hstart.
  cbn [fmap option_fmap option_map mbind option_bind] in Hstart.
  injection Hstart as <-.
  set (a' := Adapter.after (Adapter.connect a)).
  assert (Hcoh : coherent
            (set_radios_
               (alter (set_descriptor_state (Adapter.state a')) key (radios_ (manager w)))
               (set_store (<[adapter d := a']> (store w)) w)) key).
  { exists (set_descriptor_state (Adapter.state a') d'), a'. cbn.
    rewrite lookup_alter_eq, Hkey. cbn. rewrite Hptr, lookup_insert_eq.
    split_and!; reflexivity. }
  split; [exact Hcoh |].
  intros k (d0 & a0 & Hk & Hcell & Hready & Hcache).
  destruct (decide (key = k)) as [<- | Hne]; [exact Hcoh |].
  exists d0. cbn. rewrite lookup_alter_ne by exact Hne.
  destruct (decide (adapter d = adapter d0)) as [E | E].
  - exists a'. rewrite <- E, lookup_insert_eq.
    assert (a0 = a) by (rewrite <- E in Hcell; congruence). subst a0.
    pose proof (connect_ready_state a Hready) as Hsame.
    split_and!; [exact Hk | reflexivity | | ].
    + subst a'. rewrite Hsame. exact Hready.
    + subst a'. rewrite Hsame. exact Hcache.
  - exists a0. rewrite lookup_insert_ne by exact E.
    split_and!; assumption.
Qed.

Lemma entry_same_shape w w1 (entry : string * RadioDescriptor) :
  same_shape w w1 ->
  (exists d', radios_ (manager w) !! fst entry = Some d'
              /\ adapter d' = adapter (snd entry))
  /\ is_Some (store w !! adapter (snd entry)) ->
  (exists d', radios_ (manager w1) !! fst entry = Some d'
              /\ adapter d' = adapter (snd entry))
  /\ is_Some (store w1 !! adapter (snd entry)).
Proof.
  intros (Hs & _ & Hr & Hd) [(d' & Hk & Hptr) Hc]. split.
  - assert (Hin : is_Some (radios_ (manager w1) !! fst entry)).
    { apply elem_of_dom. rewrite Hr. apply elem_of_dom. eauto. }
    destruct Hin as [d1 Hd1]. exists d1. split; [exact Hd1 |].
    destruct (Hd _ _ Hd1) as (d0 & Hd0 & E). congruence.
  - apply elem_of_dom. rewrite Hs. apply elem_of_dom, Hc.
Qed.

Lemma foldl_start_one_coherent (l : list (string * RadioDescriptor)) :
  forall w,
  Forall (fun entry =>
            (exists d', radios_ (manager w) !! fst entry = Some d'
                        /\ adapter d' = adapter (snd entry))
            /\ is_Some (store w !! adapter (snd entry))) l ->
  exists w',
    foldl start_one (Some w) l = Some w'
    /\ same_shape w w'
    /\ (forall k, coherent w k -> coherent w' k)
    /\ Forall (fun entry => coherent w' (fst entry)) l.
Proof.
  induction l as [| entry l IH]; intros w Hall.
  - exists w. split_and!; [reflexivity | apply same_shape_refl | auto | constructor].
  - apply Forall_cons in Hall as [[Hkey Hcell] Hrest].
    destruct (start_one_coherent w entry Hkey Hcell)
      as (w1 & Hone & Hshape1 & Hcoh1 & Hpres1).
    destruct (IH w1) as (w' & Hfold & Hshape' & Hpres' & Hall').
    { eapply Forall_impl; [exact Hrest |]. intros e He.
      eapply entry_same_shape; eassumption. }
    exists w'. cbn [foldl]. rewrite Hone.
    split_and!; [exact Hfold | eapply same_shape_trans; eassumption | auto |].
    constructor; [apply Hpres', Hcoh1 | exact Hall'].
Qed.

(** X8. After [start] every radio is Ready and its cache is fresh.  From
    any registry none of whose descriptors lacks its adapter, [start]
    returns; it keeps the set of radio ids and the active radio, and for
    every radio the state cached in its descriptor then has status Ready
    and is exactly the state [get_state] reports. *)
Theorem start_makes_ready_and_coherent w :
  registry_wf w ->
  exists w',
    start w = Some w'
    /\ dom (radios_ (manager w')) = dom (radios_ (manager w))
    /\ active_radio (manager w') = active_radio (manager w)
    /\ forall id d,
         radios_ (manager w') !! id = Some d ->
         status (state d) = Ready /\ get_state id w' = Some (state d).
Proof.
  intros Hwf.
  destruct (foldl_start_one_coherent (map_to_list (radios_ (manager w))) w)
    as (w' & Hstart & Hshape & _ & Hall).
  { rewrite Forall_forall. intros [key d] Hin. cbn.
    apply elem_of_map_to_list in Hin. split; [eauto | eapply Hwf, Hin]. }
  exists w'. split; [exact Hstart |].
  destruct Hshape as (_ & Hactive & Hdom & _).
  split; [exact Hdom |]. split; [exact Hactive |].
  intros id d Hd.
  assert (Hin : is_Some (radios_ (manager w) !! id)).
  { apply elem_of_dom. rewrite <- Hdom. apply elem_of_dom. eauto. }
  destruct Hin as [d0 Hd0]. apply elem_of_map_to_list in Hd0.
  rewrite Forall_forall in Hall.
  destruct (Hall _ Hd0) as (d1 & a & Hk & Hcell & Hready & Hcache).
  cbn in Hk. assert (d1 = d) by congruence. subst d1.
  split; [congruence |].
  unfold get_state, adapter_state. rewrite Hd, Hcell. cbn. congruence.
Qed.

(** X9. A call through a handle leaves the cache stale.  In a registry
    none of whose descriptors lacks its adapter, for every known radio and
    every adapter operation called through the handle [get_adapter] gave,
    the call returns, the registry object itself is untouched, so the
    descriptors [list_radios] copies out still carry the state cached
    before, while [get_state] reports the adapter's new state. *)
Theorem handle_call_bypasses_cache w (id : string) d (op : Adapter.Op) :
  registry_wf w ->
  radios_ (manager w) !! id = Some d ->
  exists a r w',
    store w !! adapter d = Some a
    /\ get_adapter id (manager w) = Some (adapter d)
    /\ call (adapter d) (Adapter.exec op) w = Some (r, w')
    /\ manager w' = manager w
    /\ list_radios (manager w') = list_radios (manager w)
    /\ radios_ (manager w') !! id = Some d
    /\ get_state id w' = Some (Adapter.state (Adapter.after (Adapter.exec op a))).
Proof.
  intros Hwf Hd.
  destruct (call_allocated (adapter d) (Adapter.exec op) w) as (a & Ha & Hcall);
    [eapply Hwf, Hd |].
  exists a. do 2 eexists.
  split; [exact Ha |].
  split; [unfold get_adapter; rewrite Hd; reflexivity |].
  split; [exact Hcall |].
  cbn. split_and!; try reflexivity; [exact Hd |].
  unfold get_state, adapter_state. cbn. rewrite Hd, lookup_insert_eq. reflexivity.
Qed.

(** X10. [stop] is final.  After [stop], from any registry, every sequence
    of set_active_radio, stop, start and calls through handles returns and
    changes nothing: no radio is known any more ([get_adapter] yields no
    handle, [set_active_radio] returns false, [get_state] reports the
    default state, [list_radios] is empty), no radio is active, and no
    public operation brings a radio back. *)
Theorem stop_is_final w (ops : list Op) :
  forallb is_public ops = true ->
  run ops (stop w) = Some (stop w)
  /\ list_radios (manager (stop w)) = []
  /\ active_radio (manager (stop w)) = None
  /\ forall id,
       get_adapter id (manager (stop w)) = None
       /\ fst (set_active_radio id (manager (stop w))) = false
       /\ get_state id (stop w) = Some default_state.
Proof.
  intros Hpub. split_and!.
  - induction ops as [| op rest IH]; [reflexivity |].
    cbn in Hpub. apply andb_true_iff in Hpub as [Hop Hrest].
    assert (Hstep : step op (stop w) = Some (stop w)).
    { destruct op as [id | | | config | id op]; try discriminate Hop.
      - cbn. unfold set_active_radio. cbn. rewrite lookup_empty. reflexivity.
      - reflexivity.
      - cbn. unfold start. cbn. rewrite map_to_list_empty. reflexivity.
      - cbn. unfold get_adapter. cbn. rewrite lookup_empty. reflexivity. }
    cbn [run]. rewrite Hstep. cbn. apply IH, Hrest.
  - unfold list_radios. cbn. rewrite map_to_list_empty. reflexivity.
  - reflexivity.
  - intros id. unfold get_adapter, set_active_radio, get_state. cbn.
    rewrite lookup_empty. split_and!; reflexivity.
Qed.

(** *** The active radio over a sequence *)

Lemma step_public_active (op : Op) w :
  is_public op = true -> registry_wf w ->
  exists w', step op w = Some w'
    /\ active_radio (manager w')
       = match op with
         | OpSetActiveRadio id =>
             if decide (id ∈ dom (radios_ (manager w)))
             then Some id else active_radio (manager w)
         | OpStop => None
         | _ => active_radio (manager w)
         end.
Proof.
  intros Hpub Hwf. destruct op as [id | | | config | id op]; cbn in Hpub |- *.
  - eexists. split; [reflexivity |]. cbn. unfold set_active_radio.
    destruct (radios_ (manager w) !! id) as [d |] eqn:E; cbn.
    + rewrite decide_True; [reflexivity | apply elem_of_dom; eauto].
    + rewrite decide_False; [reflexivity |].
      rewrite elem_of_dom, E. intros [x Hx]. discriminate Hx.
  - eexists. split; reflexivity.
  - destruct (start_same_shape w Hwf) as (w' & Hstart & Hshape).
    exists w'. split; [exact Hstart | apply Hshape].
  - discriminate Hpub.
  - unfold get_adapter. destruct (radios_ (manager w) !! id) as [d |] eqn:E.
    + destruct (call_allocated (adapter d) (Adapter.exec op) w) as (a & Ha & Hcall);
        [eapply Hwf, E |].
      rewrite Hcall. cbn. eexists. split; reflexivity.
    + exists w. split; reflexivity.
Qed.

(** X11. The active radio is the last selection that succeeded since the
    last stop.  From any registry none of whose descriptors lacks its
    adapter, over any sequence of set_active_radio, stop, start and calls
    through handles, [active_radio()] afterwards is the id of the last
    set_active_radio that named a known radio after the last stop, if
    there is one; otherwise it is unset if a stop occurred, and what it was
    before if none did.  Neither start, nor a call through a handle, nor a
    selection of an unknown id changes it. *)
Theorem active_radio_is_last_selection w (ops : list Op) :
  forallb is_public ops = true ->
  registry_wf w ->
  exists w',
    run ops w = Some w'
    /\ active_radio (manager w')
       = selected (dom (radios_ (manager w))) (active_radio (manager w)) ops.
Proof.
  revert w. induction ops as [| op rest IH]; intros w Hpub Hwf.
  - exists w. split; reflexivity.
  - cbn in Hpub. apply andb_true_iff in Hpub as [Hop Hrest].
    destruct (step_public_kept op w Hop Hwf) as (w1 & Hstep & Hkept1 & Hdom1).
    destruct (step_public_active op w Hop Hwf) as (w1' & Hstep' & Hact1).
    assert (w1' = w1) by congruence. subst w1'.
    destruct (IH w1 Hrest (kept_wf _ _ Hkept1 Hwf)) as (w' & Hrun & Hact').
    exists w'. cbn [run]. rewrite Hstep. cbn [mbind option_bind].
    split; [exact Hrun |].
    rewrite Hact', Hdom1, Hact1.
    destruct op as [id | | | config | id op]; reflexivity.
Qed.

End RegistryFacts.

Lemma active_radio_is_last_selection_witness :
  let ops :=
    [Radio.OpSetActiveRadio "r1"; Radio.OpStart; Radio.OpSetActiveRadio "r2";
     Radio.OpAdapterCall "r3" Adapter.OpConnect; Radio.OpSetActiveRadio "r3"] in
  forallb Radio.is_public ops = true
  /\ exists w',
       Radio.run ops (Radio.construct two_radios) = Some w'
       /\ Radio.active_radio (Radio.manager w')
          = RadioFacts.selected
              (dom (Radio.radios_ (Radio.manager (Radio.construct two_radios))))
              (Radio.active_radio (Radio.manager (Radio.construct two_radios))) ops.
Proof.
  intros ops. split; [reflexivity |].
  exact (active_radio_is_last_selection (Radio.construct two_radios) ops eq_refl
           (construct_wf two_radios)).
Defined.

Lemma adapter_call_isolated_witness :
  let w0 := Radio.construct two_radios in
  let w := Radio.set_manager (snd (Radio.set_active_radio "r1" (Radio.manager w0))) w0 in
  Radio.run [Radio.OpSetActiveRadio "r1"] w0 = Some w
  /\ is_Some (Radio.radios_ (Radio.manager w) !! "r1")
  /\ "r1" <> "r3"
  /\ RadioFacts.adapters_distinct w
  /\ exists l r w',
       Radio.get_adapter "r1" (Radio.manager w) = Some l
       /\ Radio.call l (Adapter.exec (Adapter.OpSetPower 2.0%float)) w = Some (r, w')
       /\ Radio.get_state "r3" w' = Radio.get_state "r3" w.
Proof.
  intros w0 w.
  assert (Hrun : Radio.run [Radio.OpSetActiveRadio "r1"] w0 = Some w) by reflexivity.
  assert (Hknown : is_Some (Radio.radios_ (Radio.manager w) !! "r1"))
    by (vm_compute; eauto).
  assert (Hne : "r1" <> "r3") by discriminate.
  split; [exact Hrun |]. split; [exact Hknown |]. split; [exact Hne |].
  exact (adapter_call_isolated two_radios [Radio.OpSetActiveRadio "r1"] w "r1" "r3"
           (Adapter.OpSetPower 2.0%float) eq_refl Hrun Hknown Hne).
Defined.

Lemma registry_keys_fixed_witness :
  let ops := [Radio.OpStart; Radio.OpStop; Radio.OpSetActiveRadio "r1"; Radio.OpStart] in
  forallb Radio.is_public ops = true
  /\ exists w',
       Radio.run ops (Radio.construct one_radio) = Some w'
       /\ dom (Radio.radios_ (Radio.manager w'))
          = (if existsb RadioFacts.is_stop ops
             then ∅ else dom (Radio.radios_ (Radio.manager (Radio.construct one_radio)))).
Proof.
  intros ops. split; [reflexivity |].
  exact (registry_keys_fixed (Radio.construct one_radio) ops eq_refl
           (construct_wf one_radio)).
Defined.

Lemma start_makes_ready_and_coherent_witness :
  let w := Radio.construct two_radios in
  exists w',
    Radio.start w = Some w'
    /\ dom (Radio.radios_ (Radio.manager w')) = dom (Radio.radios_ (Radio.manager w))
    /\ Radio.active_radio (Radio.manager w') = Radio.active_radio (Radio.manager w)
    /\ forall id d,
         Radio.radios_ (Radio.manager w') !! id = Some d ->
         status (Radio.state d) = Ready /\ Radio.get_state id w' = Some (Radio.state d).
Proof.
  intros w.
  exact (start_makes_ready_and_coherent w (construct_wf two_radios)).
Defined.

Lemma handle_call_bypasses_cache_witness :
  let w := Radio.construct one_radio in
  let d := RadioFacts.descriptor_of "r1" 1%positive in
  Radio.radios_ (Radio.manager w) !! "r1" = Some d
  /\ exists a r w',
       Radio.store w !! Radio.adapter d = Some a
       /\ Radio.get_adapter "r1" (Radio.manager w) = Some (Radio.adapter d)
       /\ Radio.call (Radio.adapter d) (Adapter.exec (Adapter.OpSetPower 2.0%float)) w
          = Some (r, w')
       /\ Radio.manager w' = Radio.manager w
       /\ Radio.list_radios (Radio.manager w') = Radio.list_radios (Radio.manager w)
       /\ Radio.radios_ (Radio.manager w') !! "r1" = Some d
       /\ Radio.get_state "r1" w'
          = Some (Adapter.state
                    (Adapter.after (Adapter.exec (Adapter.OpSetPower 2.0%float) a))).
Proof.
  intros w d.
  assert (Hd : Radio.radios_ (Radio.manager w) !! "r1" = Some d)
    by (vm_compute; reflexivity).
  split; [exact Hd |].
  exact (handle_call_bypasses_cache w "r1" d (Adapter.OpSetPower 2.0%float)
           (construct_wf one_radio) Hd).
Defined.

Lemma stop_is_final_witness :
  let w := Radio.construct one_radio in
  let ops := [Radio.OpStart; Radio.OpSetActiveRadio "r1";
              Radio.OpAdapterCall "r1" Adapter.OpConnect] in
  forallb Radio.is_public ops = true
  /\ Radio.run ops (Radio.stop w) = Some (Radio.stop w)
  /\ Radio.list_radios (Radio.manager (Radio.stop w)) = []
  /\ Radio.active_radio (Radio.manager (Radio.stop w)) = None
  /\ forall id,
       Radio.get_adapter id (Radio.manager (Radio.stop w)) = None
       /\ fst (Radio.set_active_radio id (Radio.manager (Radio.stop w))) = false
       /\ Radio.get_state id (Radio.stop w) = Some default_state.
Proof.
  intros w ops. split; [reflexivity |].
  exact (stop_is_final w ops eq_refl).
Defined.

(** ** Properties of the skeleton registry and of command sequences *)

Lemma skeleton_loop_spec (rest : list Skeleton.RadioInfo) (radioId : string)
    (m : Skeleton.RadioManager) :
  let r := Skeleton.setActiveRadio_loop rest radioId m in
  fst (fst r) = bool_decide (radioId ∈ Skeleton.id <$> rest)
  /\ Skeleton.radios_ (snd (fst r)) = Skeleton.radios_ m
  /\ Skeleton.activeRadio_ (snd (fst r))
     = (if fst (fst r) then radioId else Skeleton.activeRadio_ m)
  /\ length (snd r) = (if fst (fst r) then 1 else 0)%nat.
Proof.
  induction rest as [| radio rest IH]; cbn.
  - split_and!; try reflexivity.
  - destruct (decide (Skeleton.id radio = radioId)) as [E | E]; cbn.
    + split_and!; try reflexivity.
      symmetry. apply bool_decide_eq_true_2. rewrite E. apply elem_of_cons. left. reflexivity.
    + destruct IH as (Hres & Hrad & Hact & Hlen).
      split_and!; try assumption.
      rewrite Hres. apply bool_decide_ext. rewrite elem_of_cons.
      split; [auto | intros [-> | H]; [congruence | exact H]].
Qed.

Lemma skeleton_step_radios (op : Skeleton.Op) (m : Skeleton.RadioManager) :
  Skeleton.radios_ (Skeleton.step op m) = Skeleton.radios_ m.
Proof.
  destruct op as [| | radioId]; try reflexivity.
  apply (skeleton_loop_spec (Skeleton.radios_ m) radioId m).
Qed.

Lemma skeleton_step_active (op : Skeleton.Op) (m : Skeleton.RadioManager) :
  Skeleton.activeRadio (Skeleton.step op m)
  = match op with
    | Skeleton.OpSetActiveRadio radioId =>
        if Skeleton.known radioId m then radioId else Skeleton.activeRadio m
    | _ => Skeleton.activeRadio m
    end.
Proof.
  destruct op as [| | radioId]; try reflexivity.
  destruct (skeleton_loop_spec (Skeleton.radios_ m) radioId m) as (Hres & _ & Hact & _).
  unfold Skeleton.activeRadio, Skeleton.step, Skeleton.setActiveRadio, Skeleton.known.
  rewrite Hact, Hres. reflexivity.
Qed.

Lemma skeleton_last_selected_ext (m m' : Skeleton.RadioManager) (ops : list Skeleton.Op) :
  Skeleton.radios_ m' = Skeleton.radios_ m ->
  Skeleton.last_selected m' ops = Skeleton.last_selected m ops.
Proof.
  intros E. induction ops as [| op rest IH]; [reflexivity |].
  cbn. rewrite IH. unfold Skeleton.known. rewrite E. reflexivity.
Qed.

(** X12. The skeleton registry, the one the application wires to the
    orchestrator: [setActiveRadio(id)] returns true exactly when a radio
    of the list has that id, and prints one line then and none otherwise;
    over any sequence of start, stop and setActiveRadio the list of radios
    never changes, and the active radio is the id of the last
    setActiveRadio that named a listed radio, or what it was before if
    there was none.  Neither a failed selection nor stop clears it. *)
Theorem skeleton_active_radio_after_run (ops : list Skeleton.Op) :
  forall m : Skeleton.RadioManager,
  Skeleton.listRadios (Skeleton.run ops m) = Skeleton.listRadios m
  /\ Skeleton.activeRadio (Skeleton.run ops m)
     = match Skeleton.last_selected m ops with
       | Some radioId => radioId
       | None => Skeleton.activeRadio m
       end
  /\ forall radioId,
       fst (fst (Skeleton.setActiveRadio radioId m)) = Skeleton.known radioId m
       /\ length (snd (Skeleton.setActiveRadio radioId m))
          = (if Skeleton.known radioId m then 1 else 0)%nat.
Proof.
  induction ops as [| op rest IH]; intros m.
  - split_and!; try reflexivity.
    intros radioId.
    destruct (skeleton_loop_spec (Skeleton.radios_ m) radioId m) as (Hres & _ & _ & Hlen).
    unfold Skeleton.setActiveRadio, Skeleton.known. rewrite <- Hres. split; [reflexivity | exact Hlen].
  - destruct (IH (Skeleton.step op m)) as (Hlist & Hact & _).
    destruct (IH m) as (_ & _ & Hsel).
    unfold Skeleton.run in *. cbn [foldl].
    split_and!; [| | exact Hsel].
    + rewrite Hlist. apply skeleton_step_radios.
    + rewrite Hact. cbn [Skeleton.last_selected].
      rewrite (skeleton_last_selected_ext m (Skeleton.step op m) rest
                 (skeleton_step_radios op m)).
      destruct (Skeleton.last_selected m rest); [reflexivity |].
      rewrite skeleton_step_active. destruct op as [| | radioId]; try reflexivity.
      destruct (Skeleton.known radioId m); reflexivity.
Qed.

Lemma command_run_cons (c : Command.Command) (rest : list Command.Command)
    (env : Command.Env) :
  CommandRuns.run (c :: rest) env
  = (fst (Command.dispatch c env)
       :: fst (CommandRuns.run rest (snd (Command.dispatch c env))),
     snd (CommandRuns.run rest (snd (Command.dispatch c env)))).
Proof.
  cbn [CommandRuns.run]. destruct (Command.dispatch c env) as [r env1]. cbn.
  destruct (CommandRuns.run rest env1). reflexivity.
Qed.

(** X13. Any sequence of dispatched commands leaves a console trace and
    nothing else: every command returns [{Ok, "stub"}]; the registry and
    the audit logger after the sequence are those before it; and
    [std::cout] has gained exactly one line per command, in order, after
    the lines it held, each naming the radio id of its command. *)
Theorem commands_only_print (cs : list Command.Command) :
  forall env : Command.Env,
  Forall (fun r => r = {| Command.code := Command.Ok; Command.message := "stub" |})
    (fst (CommandRuns.run cs env))
  /\ length (fst (CommandRuns.run cs env)) = length cs
  /\ Command.radioManager_ (snd (CommandRuns.run cs env)) = Command.radioManager_ env
  /\ Command.auditLogger_ (snd (CommandRuns.run cs env)) = Command.auditLogger_ env
  /\ exists lines,
       Command.cout (snd (CommandRuns.run cs env)) = Command.cout env ++ lines
       /\ CommandRuns.named_radio <$> lines = (fun c => Some (Command.target c)) <$> cs.
Proof.
  induction cs as [| c rest IH]; intros env.
  - cbn. split_and!; try reflexivity; [constructor |].
    exists []. split; [symmetry; apply app_nil_r | reflexivity].
  - rewrite command_run_cons. cbn [fst snd length].
    destruct (IH (snd (Command.dispatch c env))) as (Hres & Hlen & Hreg & Haud & lines & Hout & Hnames).
    split_and!.
    + constructor; [destruct c; reflexivity | exact Hres].
    + rewrite Hlen. reflexivity.
    + rewrite Hreg. destruct c; reflexivity.
    + rewrite Haud. destruct c; reflexivity.
    + rewrite Hout.
      destruct c; cbn; rewrite <- app_assoc; eexists; (split; [reflexivity |]);
        cbn; rewrite Hnames; reflexivity.
Qed.

(** ** Properties of the texts and the telemetry events *)

Lemma command_result_code_text_inj (c1 c2 : CommandResultCode) :
  Common.to_string c1 = Common.to_string c2 -> c1 = c2.
Proof. destruct c1, c2; cbn; intros H; first [reflexivity | discriminate H]. Qed.

Lemma radio_status_text_inj (s1 s2 : RadioStatus) :
  Common.status_to_string s1 = Common.status_to_string s2 -> s1 = s2.
Proof. destruct s1, s2; cbn; intros H; first [reflexivity | discriminate H]. Qed.

(** X14. The three [to_string] functions lose nothing: two result codes,
    two radio statuses or two error codes with the same text are the same
    enumerator, and the fallback texts after the switches ("internal",
    "offline", "UNKNOWN") stand for no enumerator of their own: "UNKNOWN"
    is the text of no error code. *)
Theorem to_string_injective :
  (forall c1 c2 : CommandResultCode,
     Common.to_string c1 = Common.to_string c2 -> c1 = c2)
  /\ (forall s1 s2 : RadioStatus,
        Common.status_to_string s1 = Common.status_to_string s2 -> s1 = s2)
  /\ (forall e1 e2 : Core.ErrorCode, Core.to_string e1 = Core.to_string e2 -> e1 = e2)
  /\ (forall e : Core.ErrorCode, Core.to_string e <> "UNKNOWN").
Proof.
  split_and!.
  - apply command_result_code_text_inj.
  - apply radio_status_text_inj.
  - intros e1 e2. destruct e1, e2; cbn; intros H; first [reflexivity | discriminate H].
  - intros e. destruct e; cbn; discriminate.
Qed.

Lemma radio_state_payload (radio_id : string) (state : RadioState)
    (bus : Telemetry.EventBus) :
  exists payload,
    Telemetry.publish_radio_state radio_id state bus
    = bus ++ [(Telemetry.RADIO_STATE, payload)]
    /\ Audit.member "radioId" payload = Some (Audit.JString radio_id)
    /\ Audit.member "status" payload
       = Some (Audit.JString (Common.status_to_string (status state)))
    /\ Audit.member "channelIndex" payload = Audit.JInt <$> channel_index state
    /\ Audit.member "powerWatts" payload = Audit.JFloat <$> power_watts state.
Proof.
  destruct state as [st [c |] [w |]]; eexists; (split; [reflexivity |]);
    cbn; split_and!; reflexivity.
Qed.

(** X16. A radio-state event carries the state and nothing is lost:
    [publish_radio_state] appends exactly one event tagged
    "rcc.radio.state" whose payload has the radio id, the text of the
    status, a "channelIndex" member exactly when the channel index is
    present and a "powerWatts" member exactly when the power is present
    (an absent value is not sent as zero); two calls that publish payloads
    with the same members were given the same radio id and the same
    state. *)
Theorem radio_state_event_faithful (radio_id : string) (state : RadioState)
    (bus : Telemetry.EventBus) :
  exists payload,
    Telemetry.publish_radio_state radio_id state bus
    = bus ++ [(Telemetry.RADIO_STATE, payload)]
    /\ Audit.member "radioId" payload = Some (Audit.JString radio_id)
    /\ Audit.member "status" payload
       = Some (Audit.JString (Common.status_to_string (status state)))
    /\ Audit.member "channelIndex" payload = Audit.JInt <$> channel_index state
    /\ Audit.member "powerWatts" payload = Audit.JFloat <$> power_watts state
    /\ forall radio_id' state' bus' payload',
         Telemetry.publish_radio_state radio_id' state' bus'
         = bus' ++ [(Telemetry.RADIO_STATE, payload')] ->
         (forall key, Audit.member key payload' = Audit.member key payload) ->
         radio_id' = radio_id /\ state' = state.
Proof.
  destruct (radio_state_payload radio_id state bus) as (payload & Hpub & Hid & Hst & Hch & Hpw).
  exists payload. split_and!; try assumption.
  intros radio_id' state' bus' payload' Hpub' Hsame.
  destruct (radio_state_payload radio_id' state' bus')
    as (payload2 & Hpub2 & Hid' & Hst' & Hch' & Hpw').
  rewrite Hpub2 in Hpub'. apply app_inv_head in Hpub'.
  injection Hpub' as ->.
  rewrite Hsame, Hid in Hid'. rewrite Hsame, Hst in Hst'.
  rewrite Hsame, Hch in Hch'. rewrite Hsame, Hpw in Hpw'.
  injection Hid' as ->. injection Hst' as Hst'.
  apply radio_status_text_inj in Hst'.
  destruct state as [st ch pw], state' as [st' ch' pw']. cbn in *.
  split; [reflexivity |].
  assert (ch' = ch) by (destruct ch, ch'; cbn in Hch'; congruence).
  assert (pw' = pw) by (destruct pw, pw'; cbn in Hpw'; congruence).
  congruence.
Qed.

(** ** Properties of the authenticators *)

(** X17. The token stub grants one scope only: for every token and every
    scope, [hasScope(authenticate(token), scope)] holds exactly when the
    token is not empty and the scope is "radio:read"; the subject of a
    non-empty token is the token itself, and a context that is not valid
    has no scope whatever it lists. *)
Theorem token_stub_grants_read_only (token scope : string) :
  TokenAuth.hasScope (TokenAuth.authenticate token) scope
  = bool_decide (token <> "" /\ scope = "radio:read")
  /\ TokenAuth.valid (TokenAuth.authenticate token) = bool_decide (token <> "")
  /\ TokenAuth.subject (TokenAuth.authenticate token) = token
  /\ forall subject scopes,
       TokenAuth.hasScope
         {| TokenAuth.valid := false; TokenAuth.subject := subject;
            TokenAuth.scopes := scopes |} scope = false.
Proof.
  unfold TokenAuth.authenticate, TokenAuth.hasScope.
  destruct (decide (token = "")) as [-> | Hne]; cbn.
  - split_and!; reflexivity.
  - split_and!; try reflexivity.
    + apply bool_decide_ext. rewrite elem_of_cons, elem_of_nil. tauto.
    + symmetry. apply bool_decide_eq_true_2. exact Hne.
Qed.

Section AuthFacts.

Import Auth.

Variable Scope : Type.
Variable Viewer : Scope.
Variable validate : string -> string -> TokenInfo Scope.
Variable hasViewerOrHigher : TokenInfo Scope -> bool.
Variable hasOperatorOrHigher : TokenInfo Scope -> bool.

Local Abbreviation authorize :=
  (Auth.authorize Scope Viewer validate hasViewerOrHigher hasOperatorOrHigher).

Ltac auth_outcome :=
  eexists; split; [reflexivity |]; cbn;
  split_and!;
  [ reflexivity
  | first [discriminate | intros _; split; reflexivity]
  | first [discriminate | intros _; split; [reflexivity | discriminate]] ].

Lemma make_with_secret (config : SecurityConfig) :
  token_secret config <> "" ->
  validator_ (make config) = Some (token_secret config)
  /\ allowed_roles_ (make config) = allowed_roles config.
Proof.
  intros Hs. unfold make. rewrite decide_False by exact Hs.
  cbn. destruct (allowed_roles config); split; reflexivity.
Qed.

Lemma make_without_secret (config : SecurityConfig) :
  token_secret config = "" ->
  validator_ (make config) = None
  /\ allowed_roles_ (make config) = allowed_roles config
  /\ allow_unauthenticated_viewer_ (make config)
     = role_listed (allowed_roles config) "viewer"
  /\ allow_unauthenticated_control_ (make config)
     = role_listed (allowed_roles config) "controller".
Proof.
  intros Hs. unfold make. rewrite decide_True by exact Hs.
  cbn. destruct (allowed_roles config); split_and!; reflexivity.
Qed.

Lemma role_listed_nonempty (roles : list string) (role : string) :
  negb (bool_decide (roles = [])) && negb (role_listed roles role)
  = negb (role_listed roles role).
Proof. destruct roles; reflexivity. Qed.

(** X18. With no token secret configured, whoever the configuration
    lists is let in unseen: if the list of allowed roles is empty or holds
    the role the level requires ("viewer" for Telemetry, "controller" for
    Control), [authorize] allows every request at that level as subject
    "anonymous", whatever its headers, and no token is ever checked. *)
Theorem authorize_anonymous_without_secret (config : SecurityConfig)
    (request : HttpRequest) (level : AccessLevel) :
  token_secret config = "" ->
  allowed_roles config = [] \/ required_role level ∈ allowed_roles config ->
  authorize (make config) request level = Some (anonymous Scope Viewer).
Proof.
  intros Hs Hrole.
  destruct (make_without_secret config Hs) as (Hv & _ & Hview & Hctl).
  assert (Hlisted : role_listed (allowed_roles config) (required_role level) = true).
  { destruct Hrole as [-> | Hin]; [reflexivity |].
    unfold role_listed. destruct (allowed_roles config); [reflexivity |].
    apply bool_decide_eq_true_2, Hin. }
  unfold Auth.authorize. rewrite Hv, Hview, Hctl.
  destruct level; cbn in Hlisted |- *; rewrite Hlisted; reflexivity.
Qed.

(** X19. With a token secret configured nobody is let in unseen, and the
    outcome is always defined: [authorize] allows a request exactly when
    its "authorization" header is present and not empty, the validator
    finds the token valid, the token's scope suffices for the level, and
    the role the level requires is listed (or no role is).  An allowed
    result carries the subject and scope of the token; a refused one has
    an empty subject and a message. *)
Theorem authorize_with_secret (config : SecurityConfig)
    (request : HttpRequest) (level : AccessLevel) :
  token_secret config <> "" ->
  let header := header_value request "authorization" in
  let info := validate (token_secret config) header in
  exists r,
    authorize (make config) request level = Some r
    /\ allowed r
       = negb (bool_decide (header = ""))
         && valid info
         && permitted Scope hasViewerOrHigher hasOperatorOrHigher level info
         && role_listed (allowed_roles config) (required_role level)
    /\ (allowed r = true ->
        subject r = info_subject info /\ scope r = info_scope info)
    /\ (allowed r = false -> subject r = "" /\ message r <> "").
Proof.
  intros Hs header info.
  destruct (make_with_secret config Hs) as [Hv Hroles].
  unfold Auth.authorize, authorize_token. rewrite Hv.
  fold header. destruct (decide (header = "")) as [Hh | Hh].
  - rewrite (bool_decide_eq_true_2 _ Hh). auth_outcome.
  - rewrite (bool_decide_eq_false_2 _ Hh). fold info. cbn [negb andb].
    destruct (valid info); cbn [negb andb]; [| auth_outcome].
    destruct (permitted Scope hasViewerOrHigher hasOperatorOrHigher level info);
      cbn [negb andb]; [| auth_outcome].
    unfold is_role_allowed. rewrite Hroles, role_listed_nonempty.
    destruct (role_listed (allowed_roles config) (required_role level));
      cbn [negb]; auth_outcome.
Qed.

(** X20. With no token secret but a list of roles that lacks the role the
    level requires, [authorize] falls through to the token check without
    a validator: a request with no "authorization" header, or an empty
    one, is refused with "Missing Authorization header", and for any other
    request the call dereferences the empty [validator_], so its outcome
    is not defined. *)
Theorem authorize_without_validator (config : SecurityConfig)
    (request : HttpRequest) (level : AccessLevel) :
  token_secret config = "" ->
  allowed_roles config <> [] ->
  required_role level ∉ allowed_roles config ->
  authorize (make config) request level
  = (if decide (header_value request "authorization" = "")
     then Some (denied Scope Viewer "Missing Authorization header")
     else None).
Proof.
  intros Hs Hne Hnot.
  destruct (make_without_secret config Hs) as (Hv & _ & Hview & Hctl).
  assert (Hlisted : role_listed (allowed_roles config) (required_role level) = false).
  { unfold role_listed. destruct (allowed_roles config); [congruence |].
    apply bool_decide_eq_false_2, Hnot. }
  unfold Auth.authorize, authorize_token. rewrite Hv, Hview, Hctl.
  destruct level; cbn in Hlisted |- *; rewrite Hlisted; cbn;
    destruct (decide (header_value request "authorization" = "")); reflexivity.
Qed.

End AuthFacts.

Lemma authorize_anonymous_without_secret_witness :
  let config := {| Auth.token_secret := ""; Auth.allowed_roles := ["viewer"] |} in
  let request := {| Auth.headers := ∅ |} in
  Auth.token_secret config = ""
  /\ Auth.required_role Auth.Telemetry ∈ Auth.allowed_roles config
  /\ Auth.authorize unit tt always_valid (fun _ => true) (fun _ => true)
       (Auth.make config) request Auth.Telemetry
     = Some (Auth.anonymous unit tt).
Proof.
  intros config request.
  assert (Hin : Auth.required_role Auth.Telemetry ∈ Auth.allowed_roles config)
    by (apply elem_of_cons; left; reflexivity).
  split; [reflexivity |]. split; [exact Hin |].
  exact (authorize_anonymous_without_secret unit tt always_valid
           (fun _ => true) (fun _ => true) config request Auth.Telemetry
           eq_refl (or_intror Hin)).
Defined.

Lemma authorize_with_secret_witness :
  let config := {| Auth.token_secret := "s3cret"; Auth.allowed_roles := ["viewer"] |} in
  let request := {| Auth.headers := {[ "authorization" := "Bearer t" ]} |} in
  Auth.token_secret config <> ""
  /\ exists r,
       Auth.authorize unit tt always_valid (fun _ => true) (fun _ => true)
         (Auth.make config) request Auth.Control = Some r
       /\ Auth.allowed r
          = negb (bool_decide (Auth.header_value request "authorization" = ""))
            && Auth.valid
                 (always_valid (Auth.token_secret config)
                    (Auth.header_value request "authorization"))
            && Auth.permitted unit (fun _ => true) (fun _ => true) Auth.Control
                 (always_valid (Auth.token_secret config)
                    (Auth.header_value request "authorization"))
            && Auth.role_listed (Auth.allowed_roles config)
                 (Auth.required_role Auth.Control)
       /\ (Auth.allowed r = true ->
           Auth.subject r
           = Auth.info_subject
               (always_valid (Auth.token_secret config)
                  (Auth.header_value request "authorization"))
           /\ Auth.scope r
              = Auth.info_scope
                  (always_valid (Auth.token_secret config)
                     (Auth.header_value request "authorization")))
       /\ (Auth.allowed r = false -> Auth.subject r = "" /\ Auth.message r <> "").
Proof.
  intros config request.
  assert (Hs : Auth.token_secret config <> "") by discriminate.
  split; [exact Hs |].
  exact (authorize_with_secret unit tt always_valid (fun _ => true) (fun _ => true)
           config request Auth.Control Hs).
Defined.

Lemma authorize_without_validator_witness :
  let config := {| Auth.token_secret := ""; Auth.allowed_roles := ["viewer"] |} in
  let request := {| Auth.headers := {[ "authorization" := "Bearer t" ]} |} in
  Auth.token_secret config = ""
  /\ Auth.allowed_roles config <> []
  /\ (Auth.required_role Auth.Control ∉ Auth.allowed_roles config)
  /\ Auth.authorize unit tt always_valid (fun _ => true) (fun _ => true)
       (Auth.make config) request Auth.Control
     = (if decide (Auth.header_value request "authorization" = "")
        then Some (Auth.denied unit tt "Missing Authorization header")
        else None).
Proof.
  intros config request.
  assert (Hne : Auth.allowed_roles config <> []) by discriminate.
  assert (Hnot : Auth.required_role Auth.Control ∉ Auth.allowed_roles config).
  { intros Hin. apply elem_of_cons in Hin as [Heq | Hin]; [discriminate Heq |].
    apply elem_of_nil in Hin. exact Hin. }
  split; [reflexivity |]. split; [exact Hne |]. split; [exact Hnot |].
  exact (authorize_without_validator unit tt always_valid (fun _ => true) (fun _ => true)
           config request Auth.Control eq_refl Hne Hnot).
Defined.
